(** * Family fair allocation: a shallow embedding and its properties

    The definitions follow the Python sources file by file:
    - [Partitions]: the recursive generators of set partitions;
    - [Agents]: the three valuation classes and their derived queries;
    - [Families]: the family object the protocols are given;
    - [Rwav]: the [balance] / [weight] recurrence with the family count and
      the round-robin protocol with weighted approval voting;
    - [MonotoneFamilies]: the two-family recurrence, Enhanced RWAV and the
      two-thirds protocol.
    The properties come after all the definitions.

    Python integers are [Z]; the floats of the recurrence, halves of sums of
    0 and 1, are exact rationals [Q]; a [set] of goods is a [gset string],
    iterated in the order of [elements]; an exception is a [Raise] in the
    [result] monad. *)

From Stdlib Require Import ZArith QArith Qminmax Lqa Lia.
From stdpp Require Import gmap strings list fin_maps sets sorting.

Local Open Scope Z_scope.

(** ** Exceptions and the error monad *)

Inductive exn : Type :=
  | ValueError
  | IndexError
  | KeyError
  | TypeError
  | AttributeError
  | OutOfFuel.  (* the model's fuel ran out; shown unreachable below *)

Inductive result (A : Type) : Type :=
  | Ok (a : A)
  | Raise (e : exn).
Arguments Ok {A} a.
Arguments Raise {A} e.

#[global] Instance result_ret : MRet result := @Ok.
#[global] Instance result_bind : MBind result :=
  fun A B f m => match m with Ok a => f a | Raise e => Raise e end.
#[global] Instance result_fmap : FMap result :=
  fun A B f m => match m with Ok a => Ok (f a) | Raise e => Raise e end.


(** ** partitions.py *)

Module Partitions.

Section Generators.

Context {A : Type}.

(** The yields made from one [smaller] partition of the rest: [first]
    joins each existing subset in turn, then forms a subset of its own
    (when [own] allows it). *)
Definition insert_first (first : A) (smaller : list (list A))
    (n : nat) (subset : list A) : list (list A) :=
  take n smaller ++ [first :: subset] ++ drop (S n) smaller.

Definition extend (own : list (list A) -> bool) (first : A)
    (smaller : list (list A)) : list (list (list A)) :=
  imap (insert_first first smaller) smaller
  ++ (if own smaller then [[first] :: smaller] else []).

(** The last yield of [partitions] is not guarded. *)
Definition always (smaller : list (list A)) : bool := true.

(** [partitions(collection)]; the generator is read off as the list of
    its yields.  [collection[0]] raises IndexError on the empty list. *)
Fixpoint partitions (collection : list A) : result (list (list (list A))) :=
  match collection with
  | [] => Raise IndexError
  | [_] => Ok [[collection]]
  | first :: rest =>
      smallers ← partitions rest;
      Ok (smallers ≫= extend always first)
  end.

Definition partitions_to_at_most_c (collection : list A) (c : Z)
    : result (list (list (list A))) :=
  match collection with
  | [] => Raise IndexError
  | [_] => Ok [[collection]]
  | first :: rest =>
      smallers ← partitions rest;
      Ok (smallers ≫=
            extend (fun smaller => Z.of_nat (length smaller) <? c) first)
  end.

Definition partitions_to_exactly_c (collection : list A) (c : Z)
    : result (list (list (list A))) :=
  ps ← partitions_to_at_most_c collection c;
  Ok (filter (fun p => Z.of_nat (length p) = c) ps).

End Generators.

(** Stirling numbers of the second kind and the Bell numbers. *)
Fixpoint stirling2 (n k : nat) : nat :=
  match n, k with
  | O, O => 1
  | O, S _ => 0
  | S _, O => 0
  | S n', S k' => (S k' * stirling2 n' k + stirling2 n' k')%nat
  end.

Definition bell (n : nat) : nat := sum_list (stirling2 n <$> seq 0 (S n)).

(** The number of partitions in [ps] that have exactly [k] parts. *)
Definition count_len {A : Type} (k : nat) (ps : list (list (list A))) : nat :=
  length (filter (fun p => length p = k) ps).

(** The parts of a partition do not overlap. *)
Definition pairwise_disjoint {A : Type} (p : list (list A)) : Prop :=
  forall (i j : nat) (a b : list A) (x : A),
    i <> j -> p !! i = Some a -> p !! j = Some b -> x ∈ a -> x ∈ b -> False.

End Partitions.


(** ** agents.py *)

Module Agents.

(** A good is a string; a bundle is a set of goods, [gset string]. *)

(** *** Python helpers *)

(** [set(g)] / [frozenset(g)] of a string: the set of its characters. *)
Fixpoint chars (g : string) : list string :=
  match g with
  | EmptyString => []
  | String a g' => String a EmptyString :: chars g'
  end.

Definition set_of_string (g : string) : gset string := list_to_set (chars g).

Definition sum_Z (l : list Z) : Z := foldr Z.add 0 l.

(** [min(l)] and [max(l)]: ValueError on an empty list. *)
Definition min_Z (l : list Z) : result Z :=
  match l with
  | [] => Raise ValueError
  | x :: l' => Ok (foldl Z.min x l')
  end.

Definition max_Z (l : list Z) : result Z :=
  match l with
  | [] => Raise ValueError
  | x :: l' => Ok (foldl Z.max x l')
  end.

(** [itertools.combinations(l, c)], in the order itertools yields them. *)
Fixpoint combinations {A : Type} (l : list A) (c : nat) : list (list A) :=
  match c with
  | O => [[]]
  | S c' =>
      match l with
      | [] => []
      | x :: l' => (cons x <$> combinations l' c') ++ combinations l' c
      end
  end.

(** [sorted(l, key=key)]: a stable sort by a key. *)
Fixpoint insert_by {A : Type} (key : A -> Z) (x : A) (l : list A) : list A :=
  match l with
  | [] => [x]
  | y :: l' => if key x <=? key y then x :: l else y :: insert_by key x l'
  end.

Fixpoint sorted {A : Type} (key : A -> Z) (l : list A) : list A :=
  match l with
  | [] => []
  | x :: l' => insert_by key x (sorted key l')
  end.

(** [l[c:]]; a negative [c] counts from the end. *)
Definition slice_from {A : Type} (c : Z) (l : list A) : list A :=
  if c <? 0 then drop (Z.to_nat (Z.of_nat (length l) + c)) l
  else drop (Z.to_nat c) l.

(** *** The three classes *)

Record MonotoneAgent : Type := {
  mono_total_value : Z;
  mono_cardinality : Z;
  map_bundle_to_value : gmap (gset string) Z
}.

Record AdditiveAgent : Type := {
  add_total_value : Z;
  add_cardinality : Z;
  map_good_to_value : gmap string Z;
  add_desired_goods : gset string
}.

Record BinaryAgent : Type := {
  total_value : Z;
  cardinality : Z;
  desired_goods : gset string
}.

Inductive Agent : Type :=
  | Monotone (a : MonotoneAgent)
  | Additive (a : AdditiveAgent)
  | Binary (a : BinaryAgent).

(** [MonotoneAgent.__init__]: the dict is given as its items, in insertion
    order; each key is an iterable of goods. *)
Definition MonotoneAgent_init (items : list (list string * Z))
    (card : Z) : result MonotoneAgent :=
  total ← max_Z (snd <$> items);
  let table :=
    foldl (fun m kv => <[list_to_set kv.1 := kv.2]> m)
          (∅ : gmap (gset string) Z) items in
  Ok {| mono_total_value := total;
        mono_cardinality := card;
        map_bundle_to_value := <[∅ := 0]> table |}.

Definition AdditiveAgent_init (map_good_to_value : gmap string Z)
    (card : Z) : AdditiveAgent :=
  {| add_total_value := sum_Z (snd <$> map_to_list map_good_to_value);
     add_cardinality := card;
     map_good_to_value := map_good_to_value;
     add_desired_goods := dom (filter (fun kv => 0 < kv.2) map_good_to_value) |}.

Definition BinaryAgent_init (desired : gset string) (card : Z) : BinaryAgent :=
  {| total_value := Z.of_nat (size desired);
     cardinality := card;
     desired_goods := desired |}.

(** *** [value] *)

Definition MonotoneAgent_value (a : MonotoneAgent) (goods : gset string)
    : result Z :=
  match map_bundle_to_value a !! goods with
  | Some v => Ok v
  | None => Raise ValueError
  end.

Definition good_value (a : AdditiveAgent) (g : string) : result Z :=
  match map_good_to_value a !! g with
  | Some v => Ok v
  | None => Raise KeyError
  end.

(** [sum([self.map_good_to_value[g] for g in goods])], over any iterable. *)
Definition AdditiveAgent_value_list (a : AdditiveAgent) (goods : list string)
    : result Z :=
  vs ← mapM (good_value a) goods;
  Ok (sum_Z vs).

Definition AdditiveAgent_value (a : AdditiveAgent) (goods : gset string)
    : result Z :=
  AdditiveAgent_value_list a (elements goods).

Definition BinaryAgent_value (a : BinaryAgent) (goods : gset string) : Z :=
  Z.of_nat (size (desired_goods a ∩ goods)).

Definition value (a : Agent) (goods : gset string) : result Z :=
  match a with
  | Monotone m => MonotoneAgent_value m goods
  | Additive d => AdditiveAgent_value d goods
  | Binary b => Ok (BinaryAgent_value b goods)
  end.

(** *** [value_except_best_c_goods] and [value_except_worst_c_goods] *)

(** The values of [bundle] less each [c]-subset, as the base class lists
    them; [itertools.combinations] rejects a negative [c]. *)
Definition values_except_c (a : MonotoneAgent) (bundle : gset string) (c : Z)
    : result (list Z) :=
  if c <? 0 then Raise ValueError
  else
    mapM (fun sub_bundle =>
            MonotoneAgent_value a (bundle ∖ list_to_set sub_bundle))
         (combinations (elements bundle) (Z.to_nat c)).

Definition Agent_value_except_best_c_goods (a : MonotoneAgent)
    (bundle : gset string) (c : Z) : result Z :=
  if Z.of_nat (size bundle) <=? c then Ok 0
  else vs ← values_except_c a bundle c; min_Z vs.

Definition Agent_value_except_worst_c_goods (a : MonotoneAgent)
    (bundle : gset string) (c : Z) : result Z :=
  if Z.of_nat (size bundle) <=? c then Ok 0
  else vs ← values_except_c a bundle c; max_Z vs.

(** The additive overrides sort the goods by value and drop the first [c].
    The keys of all goods are computed before sorting. *)
Definition AdditiveAgent_sorted (a : AdditiveAgent) (sign : Z)
    (bundle : gset string) : result (list string) :=
  keyed ← mapM (fun g => v ← good_value a g; Ok (g, sign * v))
               (elements bundle);
  Ok (fst <$> sorted snd keyed).

Definition AdditiveAgent_value_except_best_c_goods (a : AdditiveAgent)
    (bundle : gset string) (c : Z) : result Z :=
  if Z.of_nat (size bundle) <=? c then Ok 0
  else
    sorted_bundle ← AdditiveAgent_sorted a (-1) bundle;
    AdditiveAgent_value_list a (slice_from c sorted_bundle).

Definition AdditiveAgent_value_except_worst_c_goods (a : AdditiveAgent)
    (bundle : gset string) (c : Z) : result Z :=
  if Z.of_nat (size bundle) <=? c then Ok 0
  else
    sorted_bundle ← AdditiveAgent_sorted a 1 bundle;
    AdditiveAgent_value_list a (slice_from c sorted_bundle).

Definition BinaryAgent_value_except_best_c_goods (a : BinaryAgent)
    (bundle : gset string) (c : Z) : Z :=
  if Z.of_nat (size bundle) <=? c then 0
  else BinaryAgent_value a bundle - c.

Definition BinaryAgent_value_except_worst_c_goods (a : BinaryAgent)
    (bundle : gset string) (c : Z) : Z :=
  if Z.of_nat (size bundle) <=? c then 0
  else BinaryAgent_value a bundle - c.

Definition value_except_best_c_goods (a : Agent) (bundle : gset string)
    (c : Z) : result Z :=
  match a with
  | Monotone m => Agent_value_except_best_c_goods m bundle c
  | Additive d => AdditiveAgent_value_except_best_c_goods d bundle c
  | Binary b => Ok (BinaryAgent_value_except_best_c_goods b bundle c)
  end.

Definition value_except_worst_c_goods (a : Agent) (bundle : gset string)
    (c : Z) : result Z :=
  match a with
  | Monotone m => Agent_value_except_worst_c_goods m bundle c
  | Additive d => AdditiveAgent_value_except_worst_c_goods d bundle c
  | Binary b => Ok (BinaryAgent_value_except_worst_c_goods b bundle c)
  end.

(** The value of one good to an additive agent, 0 for a good it does not
    know. *)
Definition good_value_or_0 (a : AdditiveAgent) (g : string) : Z :=
  default 0 (map_good_to_value a !! g).

(** The agents that the three constructors build. *)
Inductive constructible : Agent -> Prop :=
  | constructible_monotone items card m :
      MonotoneAgent_init items card = Ok m -> constructible (Monotone m)
  | constructible_additive table card :
      constructible (Additive (AdditiveAgent_init table card))
  | constructible_binary desired card :
      constructible (Binary (BinaryAgent_init desired card)).

(** *** Valuations the classes assume but do not check *)

(** A table is monotone when a larger bundle never has a smaller value. *)
Definition monotone_table (m : gmap (gset string) Z) : Prop :=
  forall (X Y : gset string) (x y : Z),
    X ⊆ Y -> m !! X = Some x -> m !! Y = Some y -> x <= y.

Definition nonnegative_goods (m : gmap string Z) : Prop :=
  forall (g : string) (v : Z), m !! g = Some v -> 0 <= v.

Definition monotone_valuation (a : Agent) : Prop :=
  match a with
  | Monotone m => monotone_table (map_bundle_to_value m)
  | Additive d => nonnegative_goods (map_good_to_value d)
  | Binary _ => True
  end.

End Agents.


(** ** families.py (not part of the sources at hand) *)

Module Families.

Import Agents.

(** Modelled from the spec: the Family object is missing.  It is an ordered
    collection of members sharing one display name, with a fairness
    criterion that maps a member's total value to its target value, and it
    exposes member counts; a record of [cardinality] n counts n times. *)
Record Family : Type := {
  members : list BinaryAgent;
  fairness_criterion : Z -> Z;
  name : string
}.

(** Modelled from the spec: [num_of_members(predicate)] of the missing
    Family, the number of members that satisfy the predicate. *)
Definition num_of_members_where (pred : BinaryAgent -> bool) (f : Family) : Z :=
  sum_Z (cardinality <$> filter (fun m => pred m = true) (members f)).

Definition num_of_members (f : Family) : Z :=
  num_of_members_where (fun _ => true) f.

(** Modelled from the spec: [num_of_members_who_want(good)] of the missing
    Family. *)
Definition num_of_members_who_want (g : string) (f : Family) : Z :=
  num_of_members_where (fun m => bool_decide (g ∈ desired_goods m)) f.

End Families.

(** ** rwav_protocol.py *)

Module Rwav.

Import Agents Families.

Section Protocol.

(** [1 - 1/math.pow(math.pow(2,1/(k-1)), r)], the floating-point value
    computed in the branch [k>2], [s==1]; every finite float is a rational. *)
Variable pow_term : Z -> Z -> Q.

(** [balance(r,s,k)].  The recursion descends on [r]; the fuel is the
    number of unfoldings that [r] allows. *)
Fixpoint balance_rec (fuel : nat) (r s k : Z) : result Q :=
  if s <=? 0 then Ok 1%Q
  else if s >? r then Ok 0%Q
  else if k =? 2 then
    match fuel with
    | O => Raise OutOfFuel
    | S fuel' =>
        b1 ← balance_rec fuel' (r - 1) s k;
        b2 ← balance_rec fuel' (r - 1) (s - 1) k;
        let val1 := ((b1 + b2) / 2)%Q in
        val2 ← balance_rec fuel' (r - 2) (s - 1) k;
        Ok (Qmin val1 val2)
    end
  else if k >? 2 then
    if s >? 1 then Raise ValueError
    else if s =? 1 then Ok (pow_term k r)
    else Raise AttributeError  (* ValueError(..).format: no such attribute *)
  else Raise AttributeError.

Definition balance (r s k : Z) : result Q := balance_rec (Z.to_nat r) r s k.

Definition weight (r s k : Z) : result Q :=
  b1 ← balance r s k;
  b2 ← balance (r - 1) s k;
  Ok (b1 - b2)%Q.

(** A member carries the [target_value] attribute that [allocate] sets. *)
Definition member_weight (member : BinaryAgent) (target_value : Z)
    (owned_goods remaining_goods : gset string) (num_of_families : Z)
    : result Q :=
  let member_remaining_value := BinaryAgent_value member remaining_goods in
  let member_current_value := BinaryAgent_value member owned_goods in
  let member_should_get_value := target_value - member_current_value in
  weight member_remaining_value member_should_get_value num_of_families.

(** [defaultdict(int)]: a missing good has weight 0. *)
Definition total_weight (m : gmap string Q) (g : string) : Q :=
  default 0%Q (m !! g).

Definition add_weight (w : Q) (m : gmap string Q) (g : string)
    : gmap string Q :=
  <[g := (total_weight m g + w)%Q]> m.

Definition vote (owned_goods remaining_goods : gset string)
    (num_of_families : Z) (m : gmap string Q) (member : BinaryAgent * Z)
    : result (gmap string Q) :=
  current_member_weight ←
    member_weight member.1 member.2 owned_goods remaining_goods
      num_of_families;
  Ok (foldl (add_weight (current_member_weight
                         * inject_Z (cardinality member.1))%Q)
            m (elements (desired_goods member.1))).

Fixpoint votes (owned_goods remaining_goods : gset string)
    (num_of_families : Z) (m : gmap string Q)
    (members : list (BinaryAgent * Z)) : result (gmap string Q) :=
  match members with
  | [] => Ok m
  | member :: rest =>
      m' ← vote owned_goods remaining_goods num_of_families m member;
      votes owned_goods remaining_goods num_of_families m' rest
  end.

(** The order on the keys [(-weight, good)] of [min]. *)
Definition key_lt (k1 k2 : Q * string) : bool :=
  match (k1.1 ?= k2.1)%Q with
  | Lt => true
  | Eq => String.ltb k1.2 k2.2
  | Gt => false
  end.

(** [min(l, key=key)]: the first least element; ValueError on no element. *)
Definition min_by {A : Type} (key : A -> Q * string) (l : list A) : result A :=
  match l with
  | [] => Raise ValueError
  | x :: l' =>
      Ok (foldl (fun best y => if key_lt (key y) (key best) then y else best)
                x l')
  end.

Definition choose_good (family : list (BinaryAgent * Z))
    (owned_goods remaining_goods : gset string) (num_of_families : Z)
    : result string :=
  map_good_to_total_weight ←
    votes owned_goods remaining_goods num_of_families ∅ family;
  min_by (fun good => ((- total_weight map_good_to_total_weight good)%Q, good))
         (elements remaining_goods).

(** The members of a family with their target values, as the first loop of
    [allocate] leaves them. *)
Definition with_targets (family : Family) : list (BinaryAgent * Z) :=
  (fun member => (member, fairness_criterion family (total_value member)))
    <$> members family.

Record state : Type := {
  turn_index : nat;
  family_index : nat;
  remaining_goods : gset string;
  bundles : list (gset string)
}.

(** One pass through the body of the [while] loop. *)
Definition turn (families : list Family) (st : state) : result state :=
  let num_of_families := length families in
  match families !! family_index st, bundles st !! family_index st with
  | Some current_family, Some current_family_bundle =>
      g ← choose_good (with_targets current_family) current_family_bundle
            (remaining_goods st) (Z.of_nat num_of_families);
      if decide (g ∈ remaining_goods st) then
        Ok {| turn_index := S (turn_index st);
              family_index := (family_index st + 1) mod num_of_families;
              remaining_goods := remaining_goods st ∖ {[g]};
              bundles := <[family_index st := current_family_bundle ∪ {[g]}]>
                           (bundles st) |}
      else Raise KeyError
  | _, _ => Raise IndexError
  end.

Fixpoint run (fuel : nat) (families : list Family) (st : state)
    : result state :=
  if decide (size (remaining_goods st) = 0)%nat then Ok st
  else match fuel with
       | O => Raise OutOfFuel
       | S fuel' => st' ← turn families st; run fuel' families st'
       end.

Definition initial (families : list Family) (goods : gset string) : state :=
  {| turn_index := 0;
     family_index := 0;
     remaining_goods := goods;
     bundles := (fun _ => ∅) <$> families |}.

(** The final state of [allocate]; one unit of fuel per good. *)
Definition allocate_run (families : list Family) (goods : gset string)
    : result state :=
  run (size goods) families (initial families goods).

Definition allocate (families : list Family) (goods : gset string)
    : result (list (gset string)) :=
  bundles <$> allocate_run families goods.

End Protocol.

(** Bundles that do not overlap. *)
Definition pairwise_disjoint (bundles : list (gset string)) : Prop :=
  forall (i j : nat) (a b : gset string),
    i <> j -> bundles !! i = Some a -> bundles !! j = Some b -> a ## b.

(** What every state of the loop of [allocate] satisfies: a bundle per
    family, the pointer inside the list, the goods split between the
    bundles and the remaining goods, and one turn taken per good given. *)
Record invariant (families : list Family) (goods : gset string)
    (st : state) : Prop := {
  inv_length : length (bundles st) = length families;
  inv_index : (family_index st < length families)%nat;
  inv_disjoint : pairwise_disjoint (bundles st);
  inv_remaining : ⋃ bundles st ## remaining_goods st;
  inv_union : ⋃ bundles st ∪ remaining_goods st = goods;
  inv_turns : (turn_index st + size (remaining_goods st) = size goods)%nat
}.

End Rwav.

(** ** monotone_families.py *)

Module MonotoneFamilies.

Import Agents Families.

(** [balance(r,s)].  The recursion descends on [r]; the fuel is the number
    of unfoldings that [r] allows. *)
Fixpoint balance_rec (fuel : nat) (r s : Z) : Q :=
  if s <=? 0 then 1%Q
  else if s >? r then 0%Q
  else match fuel with
       | O => 0%Q
       | S fuel' =>
           let val1 := ((balance_rec fuel' (r - 1) s
                         + balance_rec fuel' (r - 1) (s - 1)) / 2)%Q in
           let val2 := balance_rec fuel' (r - 2) (s - 1) in
           Qmin val1 val2
       end.

Definition balance (r s : Z) : Q := balance_rec (Z.to_nat r) r s.

Definition weight (r s : Z) : Q := (balance r s - balance (r - 1) s)%Q.

(** *** Enhanced RWAV *)

Section Enhanced.

Variable pow_term : Z -> Z -> Q.

(** Modelled from the spec: [allocate_using_RWAV] is not defined in the
    sources; the fall-back is plain RWAV over the full goods set. *)
Definition allocate_using_RWAV (families : list Family) (goods : gset string)
    : result (list (gset string)) :=
  Rwav.allocate pow_term families goods.

(** The [for g in goods] loop over the goods still to visit; [None] when no
    good reaches a threshold. *)
Fixpoint shortcut (family0 family1 : Family) (thresholds : Q * Q)
    (goods : gset string) (to_visit : list string)
    : option (list (gset string)) :=
  match to_visit with
  | [] => None
  | g :: rest =>
      let nums := (num_of_members_who_want g family0,
                   num_of_members_who_want g family1) in
      if Qle_bool thresholds.1 (inject_Z nums.1) then
        let bundle1 := set_of_string g in
        let bundle2 := goods ∖ bundle1 in
        Some [bundle1; bundle2]
      else if Qle_bool thresholds.2 (inject_Z nums.2) then
        let bundle2 := set_of_string g in
        let bundle1 := goods ∖ bundle2 in
        Some [bundle1; bundle2]
      else shortcut family0 family1 thresholds goods rest
  end.

(** The count [n] of members reaches the threshold [t]: [n >= t]. *)
Definition reaches (t : Q) (n : Z) : Prop := Qle_bool t (inject_Z n) = true.


Definition allocate_using_enhanced_RWAV (families : list Family)
    (goods : gset string) (threshold : Q) : result (list (gset string)) :=
  match families with
  | [family0; family1] =>
      let thresholds :=
        ((threshold * inject_Z (num_of_members family0))%Q,
         (threshold * inject_Z (num_of_members family1))%Q) in
      match shortcut family0 family1 thresholds goods (elements goods) with
      | Some allocation => Ok allocation
      | None => allocate_using_RWAV families goods
      end
  | _ => Raise TypeError  (* raise("..."): a str is not an exception *)
  end.

End Enhanced.

(** *** The two-thirds protocol *)

(** [bundles[0]], [bundles[1]] and the [change] flag. *)
Record search : Type := {
  bundle0 : gset string;
  bundle1 : gset string;
  change : bool
}.

(** The two bundles split [goods]: disjoint, and together all of it. *)
Definition splits (goods : gset string) (st : search) : Prop :=
  bundle0 st ## bundle1 st /\ bundle0 st ∪ bundle1 st = goods.

(** [member.value(g)>0 and member.value(bundle)==v]; [value] of the
    string [g] looks at its characters. *)
Definition poor (g : string) (bundle : gset string) (v : Z)
    (member : BinaryAgent) : bool :=
  (0 <? BinaryAgent_value member (set_of_string g))
  && (BinaryAgent_value member bundle =? v).

(** The body of the first inner loop: maybe move [g] from bundle 0 to 1. *)
Definition move_to_1 (family0 family1 : Family) (st : search) (g : string)
    : result search :=
  let poor_in_2 := num_of_members_where (poor g (bundle1 st) 0) family1 in
  let poor_in_1 := num_of_members_where (poor g (bundle0 st) 1) family0 in
  if poor_in_2 >? poor_in_1 then
    if decide (g ∈ bundle0 st) then
      Ok {| bundle0 := bundle0 st ∖ {[g]};
            bundle1 := bundle1 st ∪ {[g]};
            change := true |}
    else Raise KeyError
  else Ok st.

(** The body of the second inner loop: maybe move [g] from bundle 1 to 0. *)
Definition move_to_0 (family0 family1 : Family) (st : search) (g : string)
    : result search :=
  let poor_in_1 := num_of_members_where (poor g (bundle0 st) 0) family0 in
  let poor_in_2 := num_of_members_where (poor g (bundle1 st) 1) family1 in
  if poor_in_1 >? poor_in_2 then
    if decide (g ∈ bundle1 st) then
      Ok {| bundle0 := bundle0 st ∪ {[g]};
            bundle1 := bundle1 st ∖ {[g]};
            change := true |}
    else Raise KeyError
  else Ok st.

(** A [for g in list(...)] loop with a body that may raise. *)
Fixpoint for_each {S A : Type} (body : S -> A -> result S) (st : S)
    (l : list A) : result S :=
  match l with
  | [] => Ok st
  | g :: rest => st' ← body st g; for_each body st' rest
  end.

(** One iteration of the outer loop, up to the test of [change]. *)
Definition iteration (family0 family1 : Family) (st : search)
    : result search :=
  let st0 := {| bundle0 := bundle0 st; bundle1 := bundle1 st;
                change := false |} in
  st1 ← for_each (move_to_1 family0 family1) st0 (elements (bundle0 st0));
  for_each (move_to_0 family0 family1) st1 (elements (bundle1 st1)).

(** [for iteration in range(n)] with its [break]. *)
Fixpoint iterations (n : nat) (family0 family1 : Family) (st : search)
    : result search :=
  match n with
  | O => Ok st
  | S n' =>
      st' ← iteration family0 family1 st;
      if change st' then iterations n' family0 family1 st' else Ok st'
  end.

Definition allocate_twothirds (families : list Family) (goods : gset string)
    : result (list (gset string)) :=
  match families with
  | [family0; family1] =>
      let num_of_members :=
        sum_Z (num_of_members <$> families) in
      let num_of_iterations := 2 * num_of_members in
      st ← iterations (Z.to_nat num_of_iterations) family0 family1
             {| bundle0 := ∅; bundle1 := goods; change := false |};
      Ok [bundle0 st; bundle1 st]
  | _ => Raise TypeError  (* raise("..."): a str is not an exception *)
  end.

End MonotoneFamilies.

(** ** The families of the doctests *)

Module Doctests.

Import Agents Families.

Local Open Scope string_scope.

(** [fairness_criteria.one_of_best_c(2)], as the doctest of [choose_good]
    spells it: [lambda r: 1 if r>=2 else 0]. *)
Definition fairness_1_of_best_2 (total : Z) : Z :=
  (if 2 <=? total then 1 else 0)%Z.

Definition wants (desired : list string) (card : Z) : BinaryAgent :=
  BinaryAgent_init (list_to_set desired) card.

Definition family (name : string) (members : list BinaryAgent) : Family :=
  {| members := members;
     fairness_criterion := fairness_1_of_best_2;
     name := name |}.




Definition rival2 : Family := family "rival2" [wants ["x"] 1].

(** The two families of the doctest of [allocate]. *)
Definition rwav_family1 : Family :=
  family "family1"
    [wants ["w"; "x"] 1; wants ["x"; "y"] 2; wants ["y"; "z"] 3;
     wants ["z"; "w"] 4].

Definition rwav_family2 : Family :=
  family "family2" [wants ["w"; "z"] 2; wants ["z"; "y"] 3].

Definition wxyz : gset string := list_to_set ["w"; "x"; "y"; "z"].

(** A family of one member who wants both goods on offer. *)
Definition loner : Family := family "loner" [wants ["a"; "b"] 1].

Definition ab : gset string := list_to_set ["a"; "b"].

(** A stand-in for the floating-point branch of [balance]. *)
Definition no_pow (k r : Z) : Q := 0%Q.

End Doctests.

(** ** More doctest data *)

Module MoreDoctests.

Import Agents Families Doctests.

Local Open Scope string_scope.

(** The family of the doctest of [choose_good], each member with target 1,
    and the pool it chooses from. *)
Definition choosers : list (BinaryAgent * Z) :=
  [(wants ["x"; "y"] 1, 1%Z); (wants ["z"; "w"] 1, 1%Z)].

Definition xyz : gset string := list_to_set ["x"; "y"; "z"].

(** The total weights after the votes of [choosers]. *)
Definition choosers_weights : gmap string Q :=
  match Rwav.votes no_pow ∅ xyz 2 ∅ choosers with
  | Ok weights => weights
  | Raise _ => ∅
  end.

(** The family of the doctest of [allocate_twothirds], and an allocation
    in which each of its members holds one wanted good. *)
Definition twothirds_family : Family :=
  family "family1" [wants ["w"; "x"] 1; wants ["y"; "z"] 1].

Definition one_each : MonotoneFamilies.search :=
  {| MonotoneFamilies.bundle0 := list_to_set ["w"; "y"];
     MonotoneFamilies.bundle1 := list_to_set ["x"; "z"];
     MonotoneFamilies.change := false |}.

End MoreDoctests.

(** ** partitions.py, continued: [powerset] *)

Module Powerset.

Import Agents.

(** [chain.from_iterable(combinations(s, r) for r in range(len(s)+1))] *)
Definition powerset {A : Type} (iterable : list A) : list (list A) :=
  seq 0 (S (length iterable)) ≫= combinations iterable.

(** The number of [c]-combinations for [c] in [start, start+m). *)
Definition combinations_count {A : Type} (l : list A) (start m : nat) : nat :=
  sum_list ((fun c => length (combinations l c)) <$> seq start m).

End Powerset.

(** ** agents.py, continued: the fairness tests of the class [Agent] *)

Module Fairness.

Import Agents.

(** The loop of [is_EFc], [is_EFx] and [is_EF]: it returns False at the
    first bundle valued above [own_value], without looking at the rest. *)
Fixpoint no_envy (own_value : Z) (other_value : gset string -> result Z)
    (all_bundles : list (gset string)) : result bool :=
  match all_bundles with
  | [] => Ok true
  | other_bundle :: rest =>
      v ← other_value other_bundle;
      if own_value <? v then Ok false
      else no_envy own_value other_value rest
  end.

Definition is_EFc (a : Agent) (own_bundle : gset string)
    (all_bundles : list (gset string)) (c : Z) : result bool :=
  own_value ← value a own_bundle;
  no_envy own_value (fun b => value_except_best_c_goods a b c) all_bundles.

Definition is_EF1 (a : Agent) (own_bundle : gset string)
    (all_bundles : list (gset string)) : result bool :=
  is_EFc a own_bundle all_bundles 1.

Definition is_EFx (a : Agent) (own_bundle : gset string)
    (all_bundles : list (gset string)) : result bool :=
  own_value ← value a own_bundle;
  no_envy own_value (fun b => value_except_worst_c_goods a b 1) all_bundles.

Definition is_EF (a : Agent) (own_bundle : gset string)
    (all_bundles : list (gset string)) : result bool :=
  own_value ← value a own_bundle;
  no_envy own_value (value a) all_bundles.

(** The field [total_value] set by [Agent.__init__]. *)
Definition Agent_total_value (a : Agent) : Z :=
  match a with
  | Monotone m => mono_total_value m
  | Additive d => add_total_value d
  | Binary b => total_value b
  end.

Definition is_PROP (a : Agent) (own_bundle : gset string)
    (num_of_agents : Z) : result bool :=
  own_value ← value a own_bundle;
  Ok (Agent_total_value a <=? own_value * num_of_agents).

(** [self.desired_goods]: a MonotoneAgent has no such attribute. *)
Definition Agent_desired_goods (a : Agent) : result (gset string) :=
  match a with
  | Monotone _ => Raise AttributeError
  | Additive d => Ok (add_desired_goods d)
  | Binary b => Ok (desired_goods b)
  end.

(** [is_PROPc]; the parameter [c] is not used by the body. *)
Definition is_PROPc (a : Agent) (own_bundle : gset string)
    (num_of_agents c : Z) : result bool :=
  own_value ← value a own_bundle;
  desired ← Agent_desired_goods a;
  total_except_best_c ←
    value_except_best_c_goods a desired (num_of_agents - 1);
  Ok (total_except_best_c <=? own_value * num_of_agents).

End Fairness.

(** ** Round-robin shares *)

Module Shares.

(** The number of the first [turns] turns that fall to family [i] when
    [k] families take turns, family 0 first. *)
Definition share (k i turns : nat) : nat := (turns + k - 1 - i) / k.

(** The pointer follows the turns, and each bundle has the size of its
    family's share of the turns taken. *)
Definition on_schedule (families : list Families.Family)
    (st : Rwav.state) : Prop :=
  Rwav.family_index st = (Rwav.turn_index st mod length families)%nat
  /\ forall (i : nat) (b : gset string),
       Rwav.bundles st !! i = Some b ->
       size b = share (length families) i (Rwav.turn_index st).

End Shares.

(** ** monotone_families.py, continued: the line protocol *)

Module LineProtocol.

Import Agents Families.

(** [member_weight] of monotone_families.py: the weight for two families. *)
Definition member_weight (member : BinaryAgent) (target_value : Z)
    (owned_goods : gset string) (remaining_goods : list string) : Q :=
  let member_remaining_value :=
    BinaryAgent_value member (list_to_set remaining_goods) in
  let member_current_value := BinaryAgent_value member owned_goods in
  let member_should_get_value := target_value - member_current_value in
  MonotoneFamilies.weight member_remaining_value member_should_get_value.

Definition vote (owned_goods : gset string) (remaining_goods : list string)
    (m : gmap string Q) (member : BinaryAgent * Z) : gmap string Q :=
  let current_member_weight :=
    member_weight member.1 member.2 owned_goods remaining_goods in
  foldl (Rwav.add_weight (current_member_weight
                          * inject_Z (cardinality member.1))%Q)
        m (elements (desired_goods member.1)).

(** [choose_good] of monotone_families.py; the members of the family come
    with their target values, and the remaining goods are any iterable. *)
Definition choose_good (family : list (BinaryAgent * Z))
    (owned_goods : gset string) (remaining_goods : list string)
    : result string :=
  let map_good_to_total_weight :=
    foldl (vote owned_goods remaining_goods) ∅ family in
  Rwav.min_by
    (fun good => ((- Rwav.total_weight map_good_to_total_weight good)%Q, good))
    remaining_goods.

(** [l.remove(g)]: the list without the first [g]; ValueError without one. *)
Fixpoint remove (g : string) (l : list string) : result (list string) :=
  match l with
  | [] => Raise ValueError
  | x :: l' => if decide (x = g) then Ok l' else cons x <$> remove g l'
  end.

Record state : Type := {
  turn_index : nat;
  family_index : nat;
  remaining_goods : list string;
  bundles : list (gset string)
}.

Definition turn (families : list (list (BinaryAgent * Z))) (st : state)
    : result state :=
  let n_families := length families in
  match families !! family_index st, bundles st !! family_index st with
  | Some current_family, Some current_family_bundle =>
      g ← choose_good current_family current_family_bundle
            (remaining_goods st);
      remaining ← remove g (remaining_goods st);
      Ok {| turn_index := S (turn_index st);
            family_index := (family_index st + 1) mod n_families;
            remaining_goods := remaining;
            bundles := <[family_index st := current_family_bundle ∪ {[g]}]>
                         (bundles st) |}
  | _, _ => Raise IndexError
  end.

Fixpoint run (fuel : nat) (families : list (list (BinaryAgent * Z)))
    (st : state) : result state :=
  match remaining_goods st with
  | [] => Ok st
  | _ :: _ =>
      match fuel with
      | O => Raise OutOfFuel
      | S fuel' => st' ← turn families st; run fuel' families st'
      end
  end.

(** [allocate_on_a_line]; one unit of fuel per good. *)
Definition allocate_on_a_line (families : list (list (BinaryAgent * Z)))
    (goods : gset string) : result (list (gset string)) :=
  if decide (length families = 2%nat) then
    bundles <$>
      run (size goods) families
        {| turn_index := 0;
           family_index := 0;
           remaining_goods := elements goods;
           bundles := (fun _ => ∅) <$> families |}
  else Raise TypeError.  (* raise("..."): a str is not an exception *)

(** The same state with the remaining goods as a set, as RWAV keeps it. *)
Definition as_rwav_state (st : state) : Rwav.state :=
  {| Rwav.turn_index := turn_index st;
     Rwav.family_index := family_index st;
     Rwav.remaining_goods := list_to_set (remaining_goods st);
     Rwav.bundles := bundles st |}.

End LineProtocol.

(** ** agents.py, continued: the methods of the base class on any agent *)

Module BaseClass.

Import Agents.

(** The values of [bundle] less each [c]-subset, for any [value] method;
    [itertools.combinations] rejects a negative [c]. *)
Definition values_except_c (value : gset string -> result Z)
    (bundle : gset string) (c : Z) : result (list Z) :=
  if c <? 0 then Raise ValueError
  else
    mapM (fun sub_bundle => value (bundle ∖ list_to_set sub_bundle))
         (combinations (elements bundle) (Z.to_nat c)).

(** [Agent.value_except_best_c_goods], not overridden. *)
Definition value_except_best_c_goods (value : gset string -> result Z)
    (bundle : gset string) (c : Z) : result Z :=
  if Z.of_nat (size bundle) <=? c then Ok 0
  else vs ← values_except_c value bundle c; min_Z vs.

(** [Agent.value_except_worst_c_goods], not overridden. *)
Definition value_except_worst_c_goods (value : gset string -> result Z)
    (bundle : gset string) (c : Z) : result Z :=
  if Z.of_nat (size bundle) <=? c then Ok 0
  else vs ← values_except_c value bundle c; max_Z vs.

End BaseClass.

(** * Properties of the recurrence *)

Section BalanceFacts.

Import MonotoneFamilies.

Lemma balance_rec_fuel (f1 : nat) :
  forall (f2 : nat) (r s : Z),
    (Z.to_nat r <= f1)%nat -> (Z.to_nat r <= f2)%nat ->
    balance_rec f1 r s = balance_rec f2 r s.
Proof.
  induction f1 as [|f1 IH]; intros f2 r s H1 H2.
  - destruct f2 as [|f2]; [reflexivity|]. simpl.
    destruct (Z.leb_spec s 0); [reflexivity|].
    destruct (Z.gtb_spec s r); [reflexivity|]. lia.
  - destruct f2 as [|f2]; simpl.
    + destruct (Z.leb_spec s 0); [reflexivity|].
      destruct (Z.gtb_spec s r); [reflexivity|]. lia.
    + destruct (Z.leb_spec s 0); [reflexivity|].
      destruct (Z.gtb_spec s r); [reflexivity|].
      rewrite (IH f2 (r - 1) s), (IH f2 (r - 1) (s - 1)),
        (IH f2 (r - 2) (s - 1)) by lia.
      reflexivity.
Qed.

Lemma balance_unfold (r s : Z) :
  balance r s =
    if s <=? 0 then 1%Q
    else if s >? r then 0%Q
    else Qmin ((balance (r - 1) s + balance (r - 1) (s - 1)) / 2)%Q
              (balance (r - 2) (s - 1)).
Proof.
  unfold balance.
  destruct (Z.to_nat r) as [|n] eqn:E; simpl.
  - destruct (Z.leb_spec s 0); [reflexivity|].
    destruct (Z.gtb_spec s r); [reflexivity|]. lia.
  - destruct (Z.leb_spec s 0); [reflexivity|].
    destruct (Z.gtb_spec s r); [reflexivity|].
    rewrite (balance_rec_fuel n (Z.to_nat (r - 1)) (r - 1) s),
      (balance_rec_fuel n (Z.to_nat (r - 1)) (r - 1) (s - 1)),
      (balance_rec_fuel n (Z.to_nat (r - 2)) (r - 2) (s - 1)) by lia.
    reflexivity.
Qed.

Lemma Qavg_range (a b : Q) :
  (0 <= a <= 1 -> 0 <= b <= 1 -> 0 <= (a + b) / 2 <= 1)%Q.
Proof.
  intros [A1 A2] [B1 B2]. split.
  - apply Qle_shift_div_l; [reflexivity|]. lra.
  - apply Qle_shift_div_r; [reflexivity|]. lra.
Qed.

Lemma balance_rec_range (fuel : nat) :
  forall r s : Z, (0 <= balance_rec fuel r s <= 1)%Q.
Proof.
  induction fuel as [|fuel IH]; intros r s; simpl.
  - destruct (s <=? 0); [split; discriminate|].
    destruct (s >? r); split; discriminate.
  - destruct (s <=? 0); [split; discriminate|].
    destruct (s >? r); [split; discriminate|].
    pose proof (Qavg_range _ _ (IH (r - 1) s) (IH (r - 1) (s - 1))) as A.
    pose proof (IH (r - 2) (s - 1)) as C.
    apply Q.min_case_strong.
    + intros x y Hxy [D1 D2]. rewrite <- Hxy. split; assumption.
    + intros _. exact A.
    + intros _. exact C.
Qed.

Lemma rwav_balance_rec_two (pow_term : Z -> Z -> Q) (fuel : nat) :
  forall r s : Z,
    (Z.to_nat r <= fuel)%nat ->
    Rwav.balance_rec pow_term fuel r s 2 = Ok (balance_rec fuel r s).
Proof.
  induction fuel as [|fuel IH]; intros r s Hf; simpl.
  - destruct (Z.leb_spec s 0); [reflexivity|].
    destruct (Z.gtb_spec s r); [reflexivity|]. lia.
  - destruct (Z.leb_spec s 0); [reflexivity|].
    destruct (Z.gtb_spec s r); [reflexivity|].
    rewrite !IH by lia. reflexivity.
Qed.

Lemma rwav_balance_two (pow_term : Z -> Z -> Q) (r s : Z) :
  Rwav.balance pow_term r s 2 = Ok (balance r s).
Proof. apply rwav_balance_rec_two. lia. Qed.

Lemma rwav_weight_two (pow_term : Z -> Z -> Q) (r s : Z) :
  Rwav.weight pow_term r s 2 = Ok (weight r s).
Proof.
  unfold Rwav.weight, weight. rewrite !rwav_balance_two. reflexivity.
Qed.

End BalanceFacts.


(** C7. With k=2 the balance of a member with r>=0 remaining and s>=0
    missing goods lies in the closed interval [0,1], for both versions of
    the function. *)
Theorem balance_in_unit_interval (r s : Z) :
  0 <= r -> 0 <= s ->
  (0 <= MonotoneFamilies.balance r s <= 1)%Q
  /\ forall pow_term : Z -> Z -> Q,
       exists b : Q, Rwav.balance pow_term r s 2 = Ok b /\ (0 <= b <= 1)%Q.
Proof.
  intros _ _. split.
  - apply balance_rec_range.
  - intros pow_term. exists (MonotoneFamilies.balance r s). split.
    + apply rwav_balance_two.
    + apply balance_rec_range.
Qed.

Lemma balance_in_unit_interval_witness :
  (0 <= MonotoneFamilies.balance 4 2 <= 1)%Q
  /\ forall pow_term : Z -> Z -> Q,
       exists b : Q, Rwav.balance pow_term 4 2 2 = Ok b /\ (0 <= b <= 1)%Q.
Proof. apply (balance_in_unit_interval 4 2); lia. Defined.

(** C8, as the code has it.  With more than two families (k>2) and a
    shortfall s>1, [balance] raises ValueError exactly when s<=r; the
    base case s>r is tested before k and returns 0 there. *)
Theorem balance_many_families_unsupported
    (pow_term : Z -> Z -> Q) (r s k : Z) :
  2 < k -> 1 < s ->
  Rwav.balance pow_term r s k =
    if s >? r then Ok 0%Q else Raise ValueError.
Proof.
  intros Hk Hs. unfold Rwav.balance.
  destruct (Z.to_nat r) as [|n]; simpl;
    destruct (Z.leb_spec s 0); try lia;
    destruct (Z.gtb_spec s r); try reflexivity;
    destruct (Z.eqb_spec k 2); try lia;
    destruct (Z.gtb_spec k 2); try lia;
    destruct (Z.gtb_spec s 1); try lia; reflexivity.
Qed.

Lemma balance_many_families_unsupported_witness :
  Rwav.balance (fun _ _ => 0%Q) 5 2 3 = Raise ValueError.
Proof.
  apply (balance_many_families_unsupported (fun _ _ => 0%Q) 5 2 3); lia.
Defined.

(** C8 as stated fails: balance(1,2,k=3) returns the number 0. *)
Lemma balance_many_families_returns_zero :
  ~ (forall (pow_term : Z -> Z -> Q) (r s k : Z),
        2 < k -> 1 < s -> exists e, Rwav.balance pow_term r s k = Raise e).
Proof.
  intros H. destruct (H (fun _ _ => 0%Q) 1 2 3) as [e He]; [lia|lia|].
  vm_compute in He. discriminate.
Qed.

(** * Properties of the partition generators *)

Section PartitionFacts.

Import Partitions.

Context {A : Type}.

Implicit Types (first : A) (p smaller : list (list A)).
Implicit Types (ps smallers : list (list (list A))).

Lemma insert_first_length first smaller n subset :
  smaller !! n = Some subset ->
  length (insert_first first smaller n subset) = length smaller.
Proof.
  intros H. unfold insert_first.
  rewrite <- (take_drop_middle smaller n subset H) at 3.
  rewrite !length_app. reflexivity.
Qed.

Lemma insert_first_concat first smaller n subset :
  smaller !! n = Some subset ->
  concat (insert_first first smaller n subset) ≡ₚ first :: concat smaller.
Proof.
  intros H. unfold insert_first.
  rewrite <- (take_drop_middle smaller n subset H) at 3.
  rewrite !concat_app. simpl. rewrite app_nil_r.
  symmetry. apply Permutation_middle.
Qed.

Lemma elem_of_extend own first smaller p :
  p ∈ extend own first smaller ->
  (exists n subset, smaller !! n = Some subset
                    /\ p = insert_first first smaller n subset)
  \/ p = [first] :: smaller.
Proof.
  unfold extend. rewrite elem_of_app. intros [H|H].
  - left. apply elem_of_lookup_imap in H as (n & subset & -> & H). eauto.
  - right. destruct (own smaller); [|by apply elem_of_nil in H].
    by apply list_elem_of_singleton in H.
Qed.

Lemma extend_concat own first smaller p :
  p ∈ extend own first smaller -> concat p ≡ₚ first :: concat smaller.
Proof.
  intros [(n & subset & H & ->)| ->]%elem_of_extend.
  - by apply insert_first_concat.
  - reflexivity.
Qed.

Lemma extend_part_count own first smaller p :
  p ∈ extend own first smaller ->
  (length smaller <= length p <= S (length smaller))%nat.
Proof.
  intros [(n & subset & H & ->)| ->]%elem_of_extend.
  - rewrite insert_first_length by done. lia.
  - simpl. lia.
Qed.

Lemma count_len_cons k p ps :
  count_len k (p :: ps) =
    ((if decide (length p = k) then 1 else 0) + count_len k ps)%nat.
Proof.
  unfold count_len. rewrite filter_cons. by destruct (decide _).
Qed.

Lemma count_len_app k ps1 ps2 :
  count_len k (ps1 ++ ps2) = (count_len k ps1 + count_len k ps2)%nat.
Proof. unfold count_len. by rewrite filter_app, length_app. Qed.

Lemma count_len_uniform k n ps :
  Forall (fun p => length p = n) ps ->
  count_len k ps = if decide (n = k) then length ps else 0%nat.
Proof.
  induction 1 as [|p ps Hp _ IH]; [by destruct (decide _)|].
  rewrite count_len_cons, IH, Hp. destruct (decide (n = k)); simpl; lia.
Qed.

Lemma count_len_extend k first smaller :
  count_len k (extend always first smaller) =
    ((if decide (length smaller = k) then length smaller else 0)
     + (if decide (S (length smaller) = k) then 1 else 0))%nat.
Proof.
  unfold extend, always. rewrite count_len_app, count_len_cons. simpl.
  rewrite (count_len_uniform k (length smaller)).
  - rewrite length_imap. unfold count_len. simpl. lia.
  - apply Forall_forall. intros p (n & subset & -> & H)%elem_of_lookup_imap.
    by apply insert_first_length.
Qed.

Lemma count_len_bind k first smallers :
  count_len k (smallers ≫= extend always first) =
    match k with
    | O => 0%nat
    | S k' => (S k' * count_len k smallers + count_len k' smallers)%nat
    end.
Proof.
  induction smallers as [|smaller smallers IH].
  - destruct k; simpl; unfold count_len; simpl; lia.
  - rewrite bind_cons, count_len_app, IH, count_len_extend.
    destruct k as [|k'].
    + generalize (length smaller). intros n. repeat case_decide; lia.
    + rewrite !count_len_cons.
      generalize (length smaller), (count_len (S k') smallers).
      intros n m. repeat case_decide; nia.
Qed.

Lemma partitions_returns (l : list A) :
  l <> [] -> exists ps, partitions l = Ok ps.
Proof.
  induction l as [|first rest IH]; [done|]. intros _.
  destruct rest as [|x rest]; [by eexists|].
  destruct IH as [smallers Hs]; [done|].
  change (partitions (first :: x :: rest))
    with (smallers ← partitions (x :: rest);
          Ok (smallers ≫= extend always first)).
  rewrite Hs. by eexists.
Qed.

Lemma partitions_cons first x (rest : list A) ps :
  partitions (first :: x :: rest) = Ok ps ->
  exists smallers, partitions (x :: rest) = Ok smallers
                   /\ ps = smallers ≫= extend always first.
Proof.
  change (partitions (first :: x :: rest))
    with (smallers ← partitions (x :: rest);
          Ok (smallers ≫= extend always first)).
  destruct (partitions (x :: rest)) as [smallers|e]; [|discriminate].
  intros [= <-]. eauto.
Qed.

Lemma partitions_count_len (l : list A) :
  forall ps k, partitions l = Ok ps -> count_len k ps = stirling2 (length l) k.
Proof.
  induction l as [|first rest IH]; intros ps k H; [discriminate|].
  destruct rest as [|x rest].
  - injection H as <-.
    destruct k as [|[|k]]; rewrite count_len_cons; unfold count_len; simpl;
      try case_decide; lia.
  - apply partitions_cons in H as (smallers & Hs & ->).
    rewrite count_len_bind.
    destruct k as [|k']; [reflexivity|].
    rewrite !(IH smallers) by done. reflexivity.
Qed.

Lemma partitions_concat (l : list A) :
  forall ps p, partitions l = Ok ps -> p ∈ ps -> concat p ≡ₚ l.
Proof.
  induction l as [|first rest IH]; intros ps p H Hp; [discriminate|].
  destruct rest as [|x rest].
  - injection H as <-. apply list_elem_of_singleton in Hp as ->. reflexivity.
  - apply partitions_cons in H as (smallers & Hs & ->).
    apply list_elem_of_bind in Hp as (smaller & Hp & Hsm).
    rewrite (extend_concat _ _ _ _ Hp). by rewrite (IH smallers smaller).
Qed.

Lemma partitions_part_count (l : list A) :
  forall ps p, partitions l = Ok ps -> p ∈ ps -> (length p <= length l)%nat.
Proof.
  induction l as [|first rest IH]; intros ps p H Hp; [discriminate|].
  destruct rest as [|x rest].
  - injection H as <-. by apply list_elem_of_singleton in Hp as ->.
  - apply partitions_cons in H as (smallers & Hs & ->).
    apply list_elem_of_bind in Hp as (smaller & Hp & Hsm).
    pose proof (extend_part_count _ _ _ _ Hp).
    pose proof (IH smallers smaller Hs Hsm). simpl in *. lia.
Qed.

Lemma sum_indicator (j a m : nat) :
  sum_list ((fun k => if decide (j = k) then 1%nat else 0%nat) <$> seq a m) =
    if decide (a <= j < a + m)%nat then 1%nat else 0%nat.
Proof.
  revert a. induction m as [|m IH]; intros a; simpl.
  - destruct (decide _); [lia|done].
  - rewrite IH.
    repeat destruct (decide _); lia.
Qed.

Lemma sum_list_fmap_plus {X : Type} (f g : X -> nat) (l : list X) :
  sum_list ((fun x => f x + g x)%nat <$> l) =
    (sum_list (f <$> l) + sum_list (g <$> l))%nat.
Proof. induction l as [|x l IH]; csimpl; [done|]. rewrite IH. lia. Qed.

Lemma length_by_count_len ps (m : nat) :
  (forall p, p ∈ ps -> (length p < m)%nat) ->
  length ps = sum_list ((fun k => count_len k ps) <$> seq 0 m).
Proof.
  induction ps as [|p ps IH]; intros Hb.
  - simpl. induction (seq 0 m) as [|k l IHl]; csimpl; [done|].
    by rewrite <- IHl.
  - assert (Hp : (length p < m)%nat) by (apply Hb; by left).
    rewrite (list_fmap_ext (fun k => count_len k (p :: ps))
               (fun k => (if decide (length p = k) then 1 else 0)
                         + count_len k ps)%nat (seq 0 m))
      by (intros; apply count_len_cons).
    rewrite sum_list_fmap_plus, sum_indicator, <- IH
      by (intros q Hq; apply Hb; by right).
    simpl. case_decide; lia.
Qed.

Lemma partitions_length (l : list A) ps :
  partitions l = Ok ps -> length ps = bell (length l).
Proof.
  intros H. unfold bell.
  rewrite (length_by_count_len ps (S (length l))).
  - f_equal. apply list_fmap_ext. intros _ k _.
    by apply partitions_count_len.
  - intros p Hp. pose proof (partitions_part_count l ps p H Hp). lia.
Qed.

Lemma NoDup_concat_pairwise_disjoint p :
  NoDup (concat p) -> pairwise_disjoint p.
Proof.
  induction p as [|a p IH]; intros Hnd i j b c x Hij Hi Hj Hb Hc.
  - done.
  - simpl in Hnd. apply NoDup_app in Hnd as (_ & Hdis & Hnd).
    assert (Hin : forall (n : nat) (d : list A),
               p !! n = Some d -> x ∈ d -> x ∈ concat p).
    { intros n d Hn Hd. apply list_elem_of_In, in_concat. exists d.
      split; apply list_elem_of_In; [by eapply list_elem_of_lookup_2|done]. }
    destruct i as [|i], j as [|j]; simpl in *; simplify_eq.
    + eapply Hdis; eauto.
    + eapply Hdis; eauto.
    + eapply (IH Hnd i j); eauto.
Qed.

End PartitionFacts.

(** C5, as the code has it.  For every non-empty collection of n elements
    the generator [partitions] yields exactly B(n) partitions, the n-th Bell
    number; in each of them every element of the input occurs exactly once
    across the parts, so that the parts of a duplicate-free input are
    pairwise disjoint and their union is the input. *)
Theorem partitions_bell {A : Type} (collection : list A) :
  collection <> [] ->
  exists ps : list (list (list A)),
    Partitions.partitions collection = Ok ps
    /\ length ps = Partitions.bell (length collection)
    /\ forall p : list (list A),
         p ∈ ps ->
         concat p ≡ₚ collection
         /\ (NoDup collection -> Partitions.pairwise_disjoint p).
Proof.
  intros Hne. destruct (partitions_returns collection Hne) as [ps H].
  exists ps. split; [done|]. split; [by apply partitions_length|].
  intros p Hp. pose proof (partitions_concat collection ps p H Hp) as Hperm.
  split; [done|]. intros Hnd.
  apply NoDup_concat_pairwise_disjoint. by rewrite Hperm.
Qed.

Lemma partitions_bell_witness :
  exists ps : list (list (list Z)),
    Partitions.partitions [1; 2; 3] = Ok ps
    /\ length ps = Partitions.bell (length [1; 2; 3])
    /\ forall p : list (list Z),
         p ∈ ps ->
         concat p ≡ₚ [1; 2; 3]
         /\ (NoDup [1; 2; 3] -> Partitions.pairwise_disjoint p).
Proof. apply (partitions_bell [1; 2; 3]). discriminate. Defined.

(** C5 as stated fails on the empty collection: B(0)=1, but the generator
    raises IndexError before it yields anything. *)
Lemma partitions_empty_raises :
  ~ (forall collection : list Z,
        exists ps, Partitions.partitions collection = Ok ps
                   /\ length ps = Partitions.bell (length collection)).
Proof. intros H. destruct (H []) as (ps & Hps & _). discriminate. Qed.

(** C4 at the input ([1,2,3], c=1): [partitions_to_at_most_c] yields
    [[1,2],[3]] and [[2],[1,3]], which have two parts, more than c. *)
Theorem partitions_to_at_most_c_exceeds :
  Partitions.partitions_to_at_most_c [1; 2; 3] 1 =
    Ok [[[1; 2; 3]]; [[1; 2]; [3]]; [[2]; [1; 3]]]
  /\ ~ (forall ps p,
           Partitions.partitions_to_at_most_c [1; 2; 3] 1 = Ok ps ->
           p ∈ ps -> Z.of_nat (length p) <= 1).
Proof.
  split; [reflexivity|]. intros H.
  specialize (H _ [[1; 2]; [3]] eq_refl). simpl in H.
  assert (2 <= 1) as Habs; [|lia].
  apply H. apply list_elem_of_In. simpl. auto.
Qed.

(** * Properties of the valuations *)

Section AgentFacts.

Import Agents.

(** ** Lists of integers *)

Lemma mapM_Ok {X Y : Type} (f : X -> result Y) (l : list X) :
  forall k, mapM f l = Ok k -> Forall2 (fun x y => f x = Ok y) l k.
Proof.
  induction l as [|x l IH]; intros k H.
  - injection H as <-. constructor.
  - change (mapM f (x :: l))
      with (y ← f x; k' ← mapM f l; Ok (y :: k')) in H.
    destruct (f x) as [y|e] eqn:Hx; [|discriminate]. simpl in H.
    destruct (mapM f l) as [k'|e]; [|discriminate].
    injection H as <-. constructor; auto.
Qed.

Lemma sum_Z_app (l1 l2 : list Z) : sum_Z (l1 ++ l2) = sum_Z l1 + sum_Z l2.
Proof. induction l1 as [|x l1 IH]; simpl; lia. Qed.

Lemma sum_Z_perm (l1 l2 : list Z) : l1 ≡ₚ l2 -> sum_Z l1 = sum_Z l2.
Proof. induction 1; simpl; lia. Qed.

Lemma sum_Z_nonneg (l : list Z) : Forall (Z.le 0) l -> 0 <= sum_Z l.
Proof. induction 1; simpl; lia. Qed.

Lemma sum_Z_submseteq (l : list Z) :
  forall s, s ⊆+ l -> Forall (Z.le 0) l -> sum_Z s <= sum_Z l.
Proof.
  induction l as [|x l IH]; intros s Hs Hl.
  - by apply submseteq_nil_r in Hs as ->.
  - apply Forall_cons in Hl as [Hx Hl].
    apply submseteq_cons_r in Hs as [Hs|(s' & Hp & Hs)].
    + specialize (IH s Hs Hl). simpl. lia.
    + rewrite (sum_Z_perm _ _ Hp). specialize (IH s' Hs Hl). simpl. lia.
Qed.

(** The last [length a - c] entries of an ascending list have the largest
    sum among its sublists of that length. *)
Lemma sum_Z_drop_sorted (a : list Z) :
  StronglySorted Z.le a ->
  forall (c : nat) (s : list Z),
    s ⊆+ a -> (length s + c = length a)%nat -> sum_Z s <= sum_Z (drop c a).
Proof.
  induction 1 as [|x a Hsorted IH Hx]; intros c s Hs Hlen.
  - apply submseteq_nil_r in Hs as ->. by rewrite drop_nil.
  - destruct c as [|c].
    + rewrite (sum_Z_perm s (x :: a)); [done|].
      apply submseteq_length_Permutation; [done|]. simpl in *. lia.
    + simpl in Hlen. simpl drop.
      apply submseteq_cons_r in Hs as [Hs|(s' & Hp & Hs)].
      * apply IH; [done|lia].
      * rewrite (sum_Z_perm _ _ Hp).
        apply Permutation_length in Hp. simpl in Hp.
        destruct (a !! c) as [y|] eqn:Hy.
        -- rewrite (drop_S a y c Hy). simpl.
           assert (x <= y).
           { rewrite Forall_forall in Hx. apply Hx.
             by eapply list_elem_of_lookup_2. }
           assert (sum_Z s' <= sum_Z (drop (S c) a)) by (apply IH; [done|lia]).
           lia.
        -- apply lookup_ge_None in Hy. lia.
Qed.

Lemma foldl_min_spec (l : list Z) :
  forall x, let m := foldl Z.min x l in
            m ∈ x :: l /\ forall y, y ∈ x :: l -> m <= y.
Proof.
  induction l as [|z l IH]; intros x; simpl.
  - split; [by left|]. intros y ->%list_elem_of_singleton. lia.
  - destruct (IH (Z.min x z)) as [Hin Hle]. split.
    + apply elem_of_cons in Hin as [->|Hin].
      * destruct (Z.min_spec x z) as [[_ ->]|[_ ->]]; [by left|by right; left].
      * by right; right.
    + intros y Hy.
      assert (foldl Z.min (Z.min x z) l <= Z.min x z) by (apply Hle; by left).
      apply elem_of_cons in Hy as [->|[->|Hy]%elem_of_cons]; [lia|lia|].
      apply Hle. by right.
Qed.

Lemma foldl_max_spec (l : list Z) :
  forall x, let m := foldl Z.max x l in
            m ∈ x :: l /\ forall y, y ∈ x :: l -> y <= m.
Proof.
  induction l as [|z l IH]; intros x; simpl.
  - split; [by left|]. intros y ->%list_elem_of_singleton. lia.
  - destruct (IH (Z.max x z)) as [Hin Hle]. split.
    + apply elem_of_cons in Hin as [->|Hin].
      * destruct (Z.max_spec x z) as [[_ ->]|[_ ->]]; [by right; left|by left].
      * by right; right.
    + intros y Hy.
      assert (Z.max x z <= foldl Z.max (Z.max x z) l) by (apply Hle; by left).
      apply elem_of_cons in Hy as [->|[->|Hy]%elem_of_cons]; [lia|lia|].
      apply Hle. by right.
Qed.

Lemma min_Z_spec (l : list Z) (m : Z) :
  min_Z l = Ok m -> m ∈ l /\ forall y, y ∈ l -> m <= y.
Proof.
  destruct l as [|x l]; [discriminate|]. intros [= <-]. apply foldl_min_spec.
Qed.

Lemma max_Z_spec (l : list Z) (m : Z) :
  max_Z l = Ok m -> m ∈ l /\ forall y, y ∈ l -> y <= m.
Proof.
  destruct l as [|x l]; [discriminate|]. intros [= <-]. apply foldl_max_spec.
Qed.

(** ** The stable sort *)

Lemma insert_by_perm {X : Type} (key : X -> Z) (x : X) (l : list X) :
  insert_by key x l ≡ₚ x :: l.
Proof.
  induction l as [|y l IH]; simpl; [done|].
  destruct (key x <=? key y); [done|]. rewrite IH. apply Permutation_swap.
Qed.

Lemma sorted_perm {X : Type} (key : X -> Z) (l : list X) : sorted key l ≡ₚ l.
Proof.
  induction l as [|x l IH]; simpl; [done|]. by rewrite insert_by_perm, IH.
Qed.

Lemma insert_by_sorted {X : Type} (key : X -> Z) (x : X) (l : list X) :
  StronglySorted Z.le (key <$> l) ->
  StronglySorted Z.le (key <$> insert_by key x l).
Proof.
  induction l as [|y l IH]; simpl; intros Hs.
  - repeat constructor.
  - apply StronglySorted_inv in Hs as [Hs Hy].
    destruct (Z.leb_spec (key x) (key y)) as [Hxy|Hxy]; csimpl.
    + constructor; [by constructor|].
      constructor; [done|]. eapply Forall_impl; [exact Hy|]. simpl. lia.
    + constructor; [by apply IH|].
      rewrite insert_by_perm. csimpl. constructor; [lia|done].
Qed.

Lemma sorted_sorted {X : Type} (key : X -> Z) (l : list X) :
  StronglySorted Z.le (key <$> sorted key l).
Proof.
  induction l as [|x l IH]; simpl; [constructor|]. by apply insert_by_sorted.
Qed.

(** ** Additive agents *)

Lemma good_value_Ok (a : AdditiveAgent) (g : string) (v : Z) :
  good_value a g = Ok v -> good_value_or_0 a g = v.
Proof.
  unfold good_value, good_value_or_0.
  destruct (map_good_to_value a !! g); [|discriminate]. by intros [= <-].
Qed.

Lemma good_value_or_0_nonneg (a : AdditiveAgent) (l : list string) :
  nonnegative_goods (map_good_to_value a) ->
  Forall (Z.le 0) (good_value_or_0 a <$> l).
Proof.
  intros Hnn. apply Forall_fmap, Forall_forall. intros g _. simpl.
  unfold good_value_or_0.
  destruct (map_good_to_value a !! g) as [v|] eqn:Hg; simpl; [|lia].
  by eapply Hnn.
Qed.

Lemma AdditiveAgent_value_list_Ok (a : AdditiveAgent) (l : list string) (v : Z) :
  AdditiveAgent_value_list a l = Ok v ->
  v = sum_Z (good_value_or_0 a <$> l).
Proof.
  unfold AdditiveAgent_value_list.
  destruct (mapM (good_value a) l) as [vs|e] eqn:Hm; [|discriminate].
  intros [= <-]. f_equal.
  apply mapM_Ok in Hm. induction Hm as [|g w l vs Hg _ IH]; csimpl; [done|].
  by rewrite (good_value_Ok _ _ _ Hg), IH.
Qed.

(** What [sorted(bundle, key=...)] returns, when all keys are defined. *)
Lemma AdditiveAgent_sorted_Ok (a : AdditiveAgent) (sign : Z)
    (bundle : gset string) (sorted_bundle : list string) :
  AdditiveAgent_sorted a sign bundle = Ok sorted_bundle ->
  sorted_bundle =
    fst <$> sorted snd
              ((fun g => (g, sign * good_value_or_0 a g)) <$> elements bundle).
Proof.
  unfold AdditiveAgent_sorted.
  destruct (mapM _ (elements bundle)) as [keyed|e] eqn:Hm; [|discriminate].
  intros [= <-]. do 2 f_equal.
  apply mapM_Ok in Hm. induction Hm as [|g kv l k Hg _ IH]; csimpl; [done|].
  rewrite IH. f_equal.
  destruct (good_value a g) as [v|e] eqn:Hv; [|discriminate].
  injection Hg as <-. by rewrite (good_value_Ok _ _ _ Hv).
Qed.

Lemma sorted_keyed_perm (key : string -> Z) (l : list string) :
  fst <$> sorted snd ((fun g => (g, key g)) <$> l) ≡ₚ l.
Proof.
  rewrite sorted_perm, <- list_fmap_compose.
  rewrite (list_fmap_ext _ id l) by done. by rewrite list_fmap_id.
Qed.

Lemma sorted_keyed_values (key : string -> Z) (l : list string) :
  key <$> (fst <$> sorted snd ((fun g => (g, key g)) <$> l)) =
    snd <$> sorted snd ((fun g => (g, key g)) <$> l).
Proof.
  rewrite <- list_fmap_compose. apply list_fmap_ext.
  intros i [g k] Hi. simpl.
  apply list_elem_of_lookup_2 in Hi. rewrite sorted_perm in Hi.
  by apply list_elem_of_fmap in Hi as (g' & [= -> ->] & _).
Qed.

Lemma additive_except_bounds (a : AdditiveAgent) (bundle : gset string)
    (c lo hi v : Z) :
  nonnegative_goods (map_good_to_value a) ->
  0 <= c -> c < Z.of_nat (size bundle) ->
  AdditiveAgent_value_except_best_c_goods a bundle c = Ok lo ->
  AdditiveAgent_value_except_worst_c_goods a bundle c = Ok hi ->
  AdditiveAgent_value a bundle = Ok v ->
  lo <= hi <= v.
Proof.
  intros Hnn Hc Hsize Hlo Hhi Hv.
  unfold AdditiveAgent_value_except_best_c_goods in Hlo.
  unfold AdditiveAgent_value_except_worst_c_goods in Hhi.
  destruct (Z.leb_spec (Z.of_nat (size bundle)) c); [lia|].
  destruct (AdditiveAgent_sorted a (-1) bundle) as [best_first|e] eqn:Hbest;
    [|discriminate].
  destruct (AdditiveAgent_sorted a 1 bundle) as [worst_first|e] eqn:Hworst;
    [|discriminate].
  simpl in Hlo, Hhi.
  apply AdditiveAgent_sorted_Ok in Hbest, Hworst.
  apply AdditiveAgent_value_list_Ok in Hlo, Hhi, Hv.
  unfold slice_from in Hlo, Hhi.
  destruct (Z.ltb_spec c 0); [lia|].
  rewrite fmap_drop in Hlo, Hhi.
  set (vals := good_value_or_0 a <$> elements bundle) in *.
  set (n := Z.to_nat c) in *.
  assert (Hlen : length vals = size bundle) by apply length_fmap.
  (* the goods, worst first, have ascending values *)
  assert (Hasc : StronglySorted Z.le (good_value_or_0 a <$> worst_first)).
  { rewrite Hworst.
    rewrite (list_fmap_ext (good_value_or_0 a)
               (fun g => 1 * good_value_or_0 a g) _)
      by (intros; lia).
    rewrite (sorted_keyed_values (fun g => 1 * good_value_or_0 a g)).
    apply sorted_sorted. }
  assert (Hpw : good_value_or_0 a <$> worst_first ≡ₚ vals).
  { rewrite Hworst. unfold vals. by rewrite sorted_keyed_perm. }
  assert (Hpb : good_value_or_0 a <$> best_first ≡ₚ vals).
  { rewrite Hbest. unfold vals. by rewrite sorted_keyed_perm. }
  split.
  - subst lo hi. apply sum_Z_drop_sorted; [done| |].
    + rewrite Hpw, <- Hpb. apply sublist_submseteq, sublist_drop.
    + rewrite length_drop, (Permutation_length Hpb), (Permutation_length Hpw).
      lia.
  - subst hi v. fold vals. rewrite <- (sum_Z_perm _ _ Hpw).
    rewrite <- (take_drop n (good_value_or_0 a <$> worst_first)) at 2.
    rewrite sum_Z_app.
    assert (0 <= sum_Z (take n (good_value_or_0 a <$> worst_first))); [|lia].
    apply sum_Z_nonneg, Forall_take. by apply good_value_or_0_nonneg.
Qed.

(** ** Monotone agents *)

Lemma values_except_c_bound (a : MonotoneAgent) (bundle : gset string)
    (c v : Z) (vs : list Z) :
  monotone_table (map_bundle_to_value a) ->
  values_except_c a bundle c = Ok vs ->
  MonotoneAgent_value a bundle = Ok v ->
  forall y, y ∈ vs -> y <= v.
Proof.
  intros Hmono Hvs Hv y Hy. unfold values_except_c in Hvs.
  destruct (c <? 0); [discriminate|].
  apply mapM_Ok in Hvs.
  apply list_elem_of_lookup in Hy as [i Hi].
  destruct (Forall2_lookup_r _ _ _ _ _ Hvs Hi) as (sub_bundle & _ & Hsub).
  unfold MonotoneAgent_value in Hsub, Hv.
  destruct (map_bundle_to_value a !! (bundle ∖ _)) as [y'|] eqn:Hy';
    [|discriminate].
  destruct (map_bundle_to_value a !! bundle) as [v'|] eqn:Hv'; [|discriminate].
  simplify_eq.
  eapply Hmono; [|exact Hy'|exact Hv']. set_solver.
Qed.

Lemma monotone_except_bounds (a : MonotoneAgent) (bundle : gset string)
    (c lo hi v : Z) :
  monotone_table (map_bundle_to_value a) ->
  c < Z.of_nat (size bundle) ->
  Agent_value_except_best_c_goods a bundle c = Ok lo ->
  Agent_value_except_worst_c_goods a bundle c = Ok hi ->
  MonotoneAgent_value a bundle = Ok v ->
  lo <= hi <= v.
Proof.
  intros Hmono Hsize Hlo Hhi Hv.
  unfold Agent_value_except_best_c_goods in Hlo.
  unfold Agent_value_except_worst_c_goods in Hhi.
  destruct (Z.leb_spec (Z.of_nat (size bundle)) c); [lia|].
  destruct (values_except_c a bundle c) as [vs|e] eqn:Hvs; [|discriminate].
  simpl in Hlo, Hhi.
  apply min_Z_spec in Hlo as [Hlo_in Hlo].
  apply max_Z_spec in Hhi as [Hhi_in Hhi].
  split; [by apply Hhi|].
  by eapply values_except_c_bound.
Qed.

End AgentFacts.

(** C9, as the code has it.  The constructors do not check the valuation
    they are given.  For a Binary agent always, for an Additive agent whose
    goods all have non-negative values, and for a Monotone agent whose
    table is monotone: if A is a subset of B and value is defined on both,
    then value(A) <= value(B). *)
Theorem value_monotone (a : Agents.Agent) (X Y : gset string) (x y : Z) :
  Agents.monotone_valuation a ->
  X ⊆ Y ->
  Agents.value a X = Ok x ->
  Agents.value a Y = Ok y ->
  x <= y.
Proof.
  intros Hmono HXY Hx Hy. destruct a as [m|d|b]; simpl in *.
  - unfold Agents.MonotoneAgent_value in *.
    destruct (Agents.map_bundle_to_value m !! X) as [x'|] eqn:HX;
      [|discriminate].
    destruct (Agents.map_bundle_to_value m !! Y) as [y'|] eqn:HY;
      [|discriminate].
    simplify_eq. by eapply Hmono.
  - apply AdditiveAgent_value_list_Ok in Hx, Hy. subst x y.
    apply sum_Z_submseteq.
    + by apply fmap_submseteq, elements_submseteq.
    + by apply good_value_or_0_nonneg.
  - injection Hx as <-. injection Hy as <-. unfold Agents.BinaryAgent_value.
    apply inj_le, subseteq_size. set_solver.
Qed.

Lemma value_monotone_witness :
  let a := Agents.Additive
             (Agents.AdditiveAgent_init
                (<["x"%string := 1]> (<["y"%string := 2]> ∅)) 1) in
  Agents.value a {["x"%string]} = Ok 1
  /\ Agents.value a {["x"%string; "y"%string]} = Ok 3
  /\ 1 <= 3.
Proof.
  intros a. split; [reflexivity|]. split; [reflexivity|].
  apply (value_monotone a {["x"%string]} {["x"%string; "y"%string]} 1 3).
  - intros g v Hg. simpl in Hg.
    apply lookup_insert_Some in Hg as [[_ <-]|[_ Hg]]; [lia|].
    apply lookup_insert_Some in Hg as [[_ <-]|[_ Hg]]; [lia|].
    by rewrite lookup_empty in Hg.
  - set_solver.
  - reflexivity.
  - reflexivity.
Defined.

(** C9 as stated fails: MonotoneAgent({"x": 2, "xy": 1}) is accepted by the
    constructor and values the bundle {x} above its superset {x,y}. *)
Lemma value_not_monotone :
  ~ (forall (a : Agents.Agent) (X Y : gset string) (x y : Z),
        Agents.constructible a ->
        X ⊆ Y ->
        Agents.value a X = Ok x ->
        Agents.value a Y = Ok y ->
        x <= y).
Proof.
  intros H.
  pose (items := [(["x"%string], 2); (["x"%string; "y"%string], 1)]).
  destruct (Agents.MonotoneAgent_init items 1) as [m|e] eqn:Hm;
    [|vm_compute in Hm; discriminate].
  assert (2 <= 1) as Habs; [|lia].
  apply (H (Agents.Monotone m) {["x"%string]}
           {["x"%string; "y"%string]} 2 1).
  - by econstructor.
  - set_solver.
  - injection Hm as <-. reflexivity.
  - injection Hm as <-. reflexivity.
Qed.

(** C6, as the code has it.  For an agent of any of the three classes whose
    valuation is monotone (see C9), every c >= 1 and every bundle with more
    than c goods on which the three queries are defined:
    value_except_best_c_goods(bundle,c) <= value_except_worst_c_goods(bundle,c)
    <= value(bundle). *)
Theorem value_except_bounds (a : Agents.Agent) (bundle : gset string)
    (c lo hi v : Z) :
  Agents.monotone_valuation a ->
  1 <= c ->
  c < Z.of_nat (size bundle) ->
  Agents.value_except_best_c_goods a bundle c = Ok lo ->
  Agents.value_except_worst_c_goods a bundle c = Ok hi ->
  Agents.value a bundle = Ok v ->
  lo <= hi <= v.
Proof.
  intros Hmono Hc Hsize Hlo Hhi Hv. destruct a as [m|d|b]; simpl in *.
  - by eapply monotone_except_bounds.
  - eapply additive_except_bounds; eauto. lia.
  - injection Hlo as <-. injection Hhi as <-. injection Hv as <-.
    unfold Agents.BinaryAgent_value_except_best_c_goods,
      Agents.BinaryAgent_value_except_worst_c_goods.
    destruct (Z.leb_spec (Z.of_nat (size bundle)) c); lia.
Qed.

Lemma value_except_bounds_witness :
  let a := Agents.Additive
             (Agents.AdditiveAgent_init
                (<["x"%string := 1]>
                   (<["y"%string := 2]> (<["z"%string := 4]> ∅))) 1) in
  let xyz : gset string := {["x"%string; "y"%string; "z"%string]} in
  Agents.value_except_best_c_goods a xyz 1 = Ok 3
  /\ Agents.value_except_worst_c_goods a xyz 1 = Ok 6
  /\ Agents.value a xyz = Ok 7
  /\ 3 <= 6 <= 7.
Proof.
  intros a xyz.
  assert (Hlo : Agents.value_except_best_c_goods a xyz 1 = Ok 3)
    by (vm_compute; reflexivity).
  assert (Hhi : Agents.value_except_worst_c_goods a xyz 1 = Ok 6)
    by (vm_compute; reflexivity).
  assert (Hv : Agents.value a xyz = Ok 7) by (vm_compute; reflexivity).
  repeat (split; [assumption|]).
  apply (value_except_bounds a xyz 1 3 6 7); try assumption.
  - intros g v Hg. simpl in Hg.
    apply lookup_insert_Some in Hg as [[_ <-]|[_ Hg]]; [lia|].
    apply lookup_insert_Some in Hg as [[_ <-]|[_ Hg]]; [lia|].
    apply lookup_insert_Some in Hg as [[_ <-]|[_ Hg]]; [lia|].
    by rewrite lookup_empty in Hg.
  - lia.
  - vm_compute. reflexivity.
Defined.

(** C6 as stated fails: for AdditiveAgent({"x":1,"y":2,"z":4}), the bundle
    {x,y,z} and c=1, value is 7 and value_except_worst_c_goods is 6. *)
Lemma value_above_except_worst :
  ~ (forall (a : Agents.Agent) (bundle : gset string) (c lo hi v : Z),
        Agents.constructible a ->
        1 <= c ->
        c < Z.of_nat (size bundle) ->
        Agents.value_except_best_c_goods a bundle c = Ok lo ->
        Agents.value_except_worst_c_goods a bundle c = Ok hi ->
        Agents.value a bundle = Ok v ->
        lo <= v <= hi).
Proof.
  intros H.
  assert (3 <= 7 <= 6) as Habs; [|lia].
  apply (H (Agents.Additive
              (Agents.AdditiveAgent_init
                 (<["x"%string := 1]>
                    (<["y"%string := 2]> (<["z"%string := 4]> ∅))) 1))
           {["x"%string; "y"%string; "z"%string]} 1 3 6 7).
  - constructor.
  - lia.
  - vm_compute. reflexivity.
  - vm_compute. reflexivity.
  - vm_compute. reflexivity.
  - vm_compute. reflexivity.
Qed.

(** * The two-thirds protocol keeps a partition of the goods *)

Section TwoThirdsFacts.

Import Agents Families MonotoneFamilies.

Variables (family0 family1 : Family) (goods : gset string).

Lemma move_to_1_splits (st st' : search) (g : string) :
  splits goods st -> move_to_1 family0 family1 st g = Ok st' ->
  splits goods st'.
Proof.
  intros [Hdis Hun]. unfold move_to_1.
  destruct (_ >? _); [|by intros [= <-]].
  destruct (decide (g ∈ bundle0 st)) as [Hg|]; [|discriminate].
  intros [= <-]. split; simpl.
  - set_solver.
  - rewrite <- Hun. apply set_eq. intros x.
    destruct (decide (x = g)); set_solver.
Qed.

Lemma move_to_0_splits (st st' : search) (g : string) :
  splits goods st -> move_to_0 family0 family1 st g = Ok st' ->
  splits goods st'.
Proof.
  intros [Hdis Hun]. unfold move_to_0.
  destruct (_ >? _); [|by intros [= <-]].
  destruct (decide (g ∈ bundle1 st)) as [Hg|]; [|discriminate].
  intros [= <-]. split; simpl.
  - set_solver.
  - rewrite <- Hun. apply set_eq. intros x.
    destruct (decide (x = g)); set_solver.
Qed.

Lemma move_to_1_returns (st : search) (g : string) :
  g ∈ bundle0 st ->
  exists st', move_to_1 family0 family1 st g = Ok st'
              /\ bundle0 st ∖ {[g]} ⊆ bundle0 st'.
Proof.
  intros Hg. unfold move_to_1.
  destruct (Z.gtb _ _).
  - rewrite decide_True by done. eexists. split; [done|]. done.
  - eexists. split; [done|]. apply subseteq_difference_l. done.
Qed.

Lemma move_to_0_returns (st : search) (g : string) :
  g ∈ bundle1 st ->
  exists st', move_to_0 family0 family1 st g = Ok st'
              /\ bundle1 st ∖ {[g]} ⊆ bundle1 st'.
Proof.
  intros Hg. unfold move_to_0.
  destruct (Z.gtb _ _).
  - rewrite decide_True by done. eexists. split; [done|]. done.
  - eexists. split; [done|]. apply subseteq_difference_l. done.
Qed.

(** The goods still to visit in the first inner loop are in bundle 0. *)
Lemma first_pass_returns (l : list string) :
  forall st : search,
    NoDup l -> (forall g, g ∈ l -> g ∈ bundle0 st) ->
    exists st', for_each (move_to_1 family0 family1) st l = Ok st'.
Proof.
  induction l as [|g l IH]; intros st Hnd Hin; simpl; [by eexists|].
  apply NoDup_cons in Hnd as [Hg Hnd].
  destruct (move_to_1_returns st g) as (st1 & -> & Hsub).
  { apply Hin. by left. }
  simpl. apply IH; [done|]. intros x Hx. apply Hsub.
  apply elem_of_difference. split.
  - apply Hin. by right.
  - intros ->%elem_of_singleton. done.
Qed.

Lemma second_pass_returns (l : list string) :
  forall st : search,
    NoDup l -> (forall g, g ∈ l -> g ∈ bundle1 st) ->
    exists st', for_each (move_to_0 family0 family1) st l = Ok st'.
Proof.
  induction l as [|g l IH]; intros st Hnd Hin; simpl; [by eexists|].
  apply NoDup_cons in Hnd as [Hg Hnd].
  destruct (move_to_0_returns st g) as (st1 & -> & Hsub).
  { apply Hin. by left. }
  simpl. apply IH; [done|]. intros x Hx. apply Hsub.
  apply elem_of_difference. split.
  - apply Hin. by right.
  - intros ->%elem_of_singleton. done.
Qed.

Lemma for_each_splits (body : search -> string -> result search) :
  (forall st st' g, splits goods st -> body st g = Ok st' -> splits goods st') ->
  forall (l : list string) (st st' : search),
    splits goods st -> for_each body st l = Ok st' -> splits goods st'.
Proof.
  intros Hbody l. induction l as [|g l IH]; intros st st' Hst; simpl.
  - by intros [= <-].
  - destruct (body st g) as [st1|e] eqn:H1; [|discriminate]. simpl.
    apply IH. by eapply Hbody.
Qed.

Lemma iteration_splits (st : search) :
  splits goods st ->
  exists st', iteration family0 family1 st = Ok st' /\ splits goods st'.
Proof.
  intros Hst. unfold iteration.
  set (st0 := {| bundle0 := bundle0 st; bundle1 := bundle1 st;
                 change := false |}).
  assert (Hst0 : splits goods st0) by exact Hst.
  destruct (first_pass_returns (elements (bundle0 st0)) st0) as [st1 H1].
  { apply NoDup_elements. }
  { intros g. by rewrite elem_of_elements. }
  rewrite H1. simpl.
  pose proof (for_each_splits _ move_to_1_splits _ _ _ Hst0 H1) as Hst1.
  destruct (second_pass_returns (elements (bundle1 st1)) st1) as [st2 H2].
  { apply NoDup_elements. }
  { intros g. by rewrite elem_of_elements. }
  exists st2. split; [done|].
  exact (for_each_splits _ move_to_0_splits _ _ _ Hst1 H2).
Qed.

Lemma iterations_splits (n : nat) :
  forall st : search,
    splits goods st ->
    exists st', iterations n family0 family1 st = Ok st' /\ splits goods st'.
Proof.
  induction n as [|n IH]; intros st Hst; simpl; [by eexists|].
  destruct (iteration_splits st Hst) as (st1 & -> & Hst1). simpl.
  destruct (change st1); [by apply IH|by eexists].
Qed.

End TwoThirdsFacts.

(** C10. For every pair of families and every set of goods,
    [allocate_twothirds] returns exactly two bundles, which are disjoint
    and whose union is the set of goods.  Each single-good reassignment
    keeps that partition, and so does the loop after any number of
    iterations, whether it stops early on an iteration without change or
    uses up its bound. *)
Theorem allocate_twothirds_partition
    (family0 family1 : Families.Family) (goods : gset string) :
  (exists b0 b1 : gset string,
      MonotoneFamilies.allocate_twothirds [family0; family1] goods
        = Ok [b0; b1]
      /\ b0 ## b1 /\ b0 ∪ b1 = goods)
  /\ (forall st st' g,
         MonotoneFamilies.splits goods st ->
         MonotoneFamilies.move_to_1 family0 family1 st g = Ok st' ->
         MonotoneFamilies.splits goods st')
  /\ (forall st st' g,
         MonotoneFamilies.splits goods st ->
         MonotoneFamilies.move_to_0 family0 family1 st g = Ok st' ->
         MonotoneFamilies.splits goods st')
  /\ (forall n st,
         MonotoneFamilies.splits goods st ->
         exists st',
           MonotoneFamilies.iterations n family0 family1 st = Ok st'
           /\ MonotoneFamilies.splits goods st').
Proof.
  split; [|split; [|split]].
  - unfold MonotoneFamilies.allocate_twothirds.
    destruct (iterations_splits family0 family1 goods
                (Z.to_nat
                   (2 * Agents.sum_Z
                          (Families.num_of_members <$> [family0; family1])))
                {| MonotoneFamilies.bundle0 := ∅;
                   MonotoneFamilies.bundle1 := goods;
                   MonotoneFamilies.change := false |})
      as (st & Hst & Hdis & Hun).
    + split; simpl; set_solver.
    + rewrite Hst. simpl. eauto.
  - apply move_to_1_splits.
  - apply move_to_0_splits.
  - apply iterations_splits.
Qed.

(** * Enhanced RWAV and the order of the two families *)

Section EnhancedFacts.

Import Agents Families MonotoneFamilies.

Variables (family0 family1 : Family) (t0 t1 : Q) (goods : gset string).



End EnhancedFacts.




(** * RWAV hands out the goods one per turn *)

Section RwavFacts.

Import Agents Families Rwav.

Variable pow_term : Z -> Z -> Q.

Lemma foldl_pick {X : Type} (better : X -> X -> bool) (l : list X) :
  forall x, foldl (fun best y => if better y best then y else best) x l
              ∈ x :: l.
Proof.
  induction l as [|y l IH]; intros x; simpl; [by left|].
  destruct (better y x).
  - right. apply IH.
  - specialize (IH x). apply elem_of_cons in IH as [->|IH]; [by left|].
    by right; right.
Qed.

Lemma min_by_elem_of {X : Type} (key : X -> Q * string) (l : list X) (x : X) :
  min_by key l = Ok x -> x ∈ l.
Proof.
  destruct l as [|y l]; [discriminate|]. intros [= <-]. apply foldl_pick.
Qed.

Lemma min_by_returns {X : Type} (key : X -> Q * string) (l : list X) :
  l <> [] -> exists x, min_by key l = Ok x.
Proof. destruct l as [|y l]; [done|]. by eexists. Qed.

(** The chosen good is one of the remaining goods. *)
Lemma choose_good_remaining (family : list (BinaryAgent * Z))
    (owned remaining : gset string) (k : Z) (g : string) :
  choose_good pow_term family owned remaining k = Ok g -> g ∈ remaining.
Proof.
  unfold choose_good.
  destruct (votes _ _ _ _ _ _) as [m|e]; [|discriminate]. simpl.
  intros H%min_by_elem_of. by apply elem_of_elements in H.
Qed.

(** With two families no vote fails. *)
Lemma votes_two (owned remaining : gset string)
    (members : list (BinaryAgent * Z)) :
  forall m, exists m',
    votes pow_term owned remaining 2 m members = Ok m'.
Proof.
  induction members as [|member members IH]; intros m; simpl; [by eexists|].
  unfold vote, member_weight. rewrite rwav_weight_two. simpl. apply IH.
Qed.

Lemma choose_good_two (family : list (BinaryAgent * Z))
    (owned remaining : gset string) :
  remaining <> ∅ ->
  exists g, choose_good pow_term family owned remaining 2 = Ok g.
Proof.
  intros Hne. unfold choose_good.
  destruct (votes_two owned remaining family ∅) as [m ->]. simpl.
  apply min_by_returns. intros Hnil.
  apply Hne. apply leibniz_equiv. by apply elements_empty_iff.
Qed.

Lemma union_list_insert (bundles : list (gset string)) (i : nat)
    (a : gset string) (g : string) :
  bundles !! i = Some a ->
  ⋃ (<[i := a ∪ {[g]}]> bundles) = ⋃ bundles ∪ {[g]}.
Proof.
  revert i. induction bundles as [|b bundles IH]; intros i Hi; [done|].
  destruct i as [|i]; simpl in *.
  - injection Hi as ->. set_solver.
  - rewrite (IH i Hi). set_solver.
Qed.

Lemma initial_invariant (families : list Family) (goods : gset string) :
  families <> [] -> invariant families goods (initial families goods).
Proof.
  intros Hne.
  assert (Hempty : ⋃ ((fun _ : Family => (∅ : gset string)) <$> families) = ∅).
  { induction families as [|f fs IH]; [done|]. csimpl.
    destruct fs as [|f' fs]; [set_solver|]. rewrite IH by done. set_solver. }
  split; simpl.
  - apply length_fmap.
  - destruct families; [done|]. simpl. lia.
  - intros i j a b _ Hi Hj.
    rewrite list_lookup_fmap in Hi. destruct (families !! i); [|done].
    injection Hi as <-. set_solver.
  - rewrite Hempty. set_solver.
  - rewrite Hempty. set_solver.
  - lia.
Qed.

(** One turn: a remaining good moves to the bundle of the family whose
    turn it is, and the pointer advances modulo the number of families. *)
Lemma turn_spec (families : list Family) (st st' : state) :
  turn pow_term families st = Ok st' ->
  exists (g : string) (current : gset string),
    bundles st !! family_index st = Some current
    /\ g ∈ remaining_goods st
    /\ remaining_goods st' = remaining_goods st ∖ {[g]}
    /\ bundles st' = <[family_index st := current ∪ {[g]}]> (bundles st)
    /\ family_index st' = ((family_index st + 1) mod length families)%nat
    /\ turn_index st' = S (turn_index st).
Proof.
  unfold turn.
  destruct (families !! family_index st) as [family|]; [|discriminate].
  destruct (bundles st !! family_index st) as [current|]; [|discriminate].
  destruct (choose_good _ _ _ _ _) as [g|e]; [|discriminate]. simpl.
  destruct (decide (g ∈ remaining_goods st)) as [Hg|]; [|discriminate].
  intros [= <-]. exists g, current. simpl. auto 10.
Qed.

Lemma turn_invariant (families : list Family) (goods : gset string)
    (st st' : state) :
  invariant families goods st ->
  turn pow_term families st = Ok st' ->
  invariant families goods st'.
Proof.
  intros [Hlen Hidx Hdis Hrem Hun Hturns] H.
  apply turn_spec in H
    as (g & current & Hcur & Hg & Hrem' & Hb' & Hidx' & Hturn').
  assert (Hcur_in : current ⊆ ⋃ bundles st).
  { intros x Hx. apply elem_of_union_list. exists current. split; [|done].
    by eapply list_elem_of_lookup_2. }
  split.
  - rewrite Hb', length_insert. done.
  - rewrite Hidx'. apply Nat.mod_upper_bound. lia.
  - rewrite Hb'. intros i j a b Hij Hi Hj.
    destruct (decide (i = family_index st)) as [->|Hi'];
      destruct (decide (j = family_index st)) as [->|Hj']; [done| | |].
    + rewrite list_lookup_insert_eq in Hi by (by eapply lookup_lt_Some).
      rewrite list_lookup_insert_ne in Hj by done.
      injection Hi as <-.
      assert (b ⊆ ⋃ bundles st).
      { intros x Hx. apply elem_of_union_list. exists b. split; [|done].
        by eapply list_elem_of_lookup_2. }
      pose proof (Hdis _ _ _ _ Hij Hcur Hj). set_solver.
    + rewrite list_lookup_insert_eq in Hj by (by eapply lookup_lt_Some).
      rewrite list_lookup_insert_ne in Hi by done.
      injection Hj as <-.
      assert (a ⊆ ⋃ bundles st).
      { intros x Hx. apply elem_of_union_list. exists a. split; [|done].
        by eapply list_elem_of_lookup_2. }
      pose proof (Hdis _ _ _ _ Hij Hi Hcur). set_solver.
    + rewrite list_lookup_insert_ne in Hi by done.
      rewrite list_lookup_insert_ne in Hj by done.
      exact (Hdis _ _ _ _ Hij Hi Hj).
  - rewrite Hb', Hrem', (union_list_insert _ _ _ _ Hcur). set_solver.
  - rewrite Hb', Hrem', (union_list_insert _ _ _ _ Hcur), <- Hun.
    apply set_eq. intros x. destruct (decide (x = g)); set_solver.
  - rewrite Hturn', Hrem'.
    assert (size (remaining_goods st ∖ {[g]})
            = (size (remaining_goods st) - 1)%nat) as ->.
    { rewrite size_difference by set_solver. by rewrite size_singleton. }
    assert (size (remaining_goods st) <> 0%nat).
    { apply size_non_empty_iff. set_solver. }
    lia.
Qed.

(** When the loop returns it has given out every good, one per turn. *)
Lemma run_invariant (families : list Family) (goods : gset string)
    (fuel : nat) :
  forall st st' : state,
    invariant families goods st ->
    run pow_term fuel families st = Ok st' ->
    invariant families goods st' /\ remaining_goods st' = ∅.
Proof.
  induction fuel as [|fuel IH]; intros st st' Hinv; simpl.
  - destruct (decide _) as [Hz|]; [|discriminate].
    intros [= <-]. split; [done|].
    by apply leibniz_equiv, size_empty_iff.
  - destruct (decide _) as [Hz|].
    + intros [= <-]. split; [done|].
      by apply leibniz_equiv, size_empty_iff.
    + destruct (turn pow_term families st) as [st1|e] eqn:Hturn;
        [|discriminate].
      simpl. apply IH. by eapply turn_invariant.
Qed.

Lemma turn_two_returns (families : list Family) (goods : gset string)
    (st : state) :
  length families = 2%nat ->
  invariant families goods st ->
  remaining_goods st <> ∅ ->
  exists st', turn pow_term families st = Ok st'.
Proof.
  intros Htwo [Hlen Hidx _ _ _ _] Hne. unfold turn.
  destruct (lookup_lt_is_Some_2 families (family_index st) Hidx)
    as [family ->].
  destruct (lookup_lt_is_Some_2 (bundles st) (family_index st))
    as [current ->]; [lia|].
  rewrite Htwo.
  destruct (choose_good_two (with_targets family) current
              (remaining_goods st) Hne) as [g Hg].
  change (Z.of_nat 2) with 2. rewrite Hg. simpl.
  rewrite decide_True by (by eapply choose_good_remaining). by eexists.
Qed.

Lemma run_two_returns (families : list Family) (goods : gset string)
    (fuel : nat) :
  length families = 2%nat ->
  forall st : state,
    invariant families goods st ->
    (size (remaining_goods st) <= fuel)%nat ->
    exists st', run pow_term fuel families st = Ok st'.
Proof.
  intros Htwo. induction fuel as [|fuel IH]; intros st Hinv Hfuel; simpl.
  - rewrite decide_True by lia. by eexists.
  - destruct (decide _) as [|Hnz]; [by eexists|].
    destruct (turn_two_returns families goods st Htwo Hinv) as [st1 Hturn].
    { intros Hempty. apply Hnz. rewrite Hempty. apply size_empty. }
    rewrite Hturn. simpl.
    pose proof (turn_invariant _ _ _ _ Hinv Hturn) as Hinv1.
    apply IH; [done|].
    destruct Hinv as [_ _ _ _ _ Ht], Hinv1 as [_ _ _ _ _ Ht1].
    apply turn_spec in Hturn as (_ & _ & _ & _ & _ & _ & _ & Hturn').
    lia.
Qed.

End RwavFacts.

(** C2, as the code has it.  For every non-empty list of families and
    every finite set of goods: each turn moves one remaining good to the
    bundle of the family whose turn it is and advances the pointer modulo
    the number of families; whenever [allocate] returns, it returns one
    bundle per family, the bundles are pairwise disjoint, their union is the
    set of goods, and exactly |goods| turns were taken; and with exactly two
    families it always returns.  (With another number of families the
    weight of a member may be undefined, and [allocate] then raises.) *)
Theorem allocate_partitions_goods (pow_term : Z -> Z -> Q)
    (families : list Families.Family) (goods : gset string) :
  families <> [] ->
  (forall st st',
      Rwav.turn pow_term families st = Ok st' ->
      exists (g : string) (current : gset string),
        Rwav.bundles st !! Rwav.family_index st = Some current
        /\ g ∈ Rwav.remaining_goods st
        /\ Rwav.remaining_goods st' = Rwav.remaining_goods st ∖ {[g]}
        /\ Rwav.bundles st'
           = <[Rwav.family_index st := current ∪ {[g]}]> (Rwav.bundles st)
        /\ Rwav.family_index st'
           = ((Rwav.family_index st + 1) mod length families)%nat
        /\ Rwav.turn_index st' = S (Rwav.turn_index st))
  /\ (forall st,
         Rwav.allocate_run pow_term families goods = Ok st ->
         Rwav.allocate pow_term families goods = Ok (Rwav.bundles st)
         /\ length (Rwav.bundles st) = length families
         /\ Rwav.pairwise_disjoint (Rwav.bundles st)
         /\ ⋃ Rwav.bundles st = goods
         /\ Rwav.remaining_goods st = ∅
         /\ Rwav.turn_index st = size goods)
  /\ (length families = 2%nat ->
      exists st, Rwav.allocate_run pow_term families goods = Ok st).
Proof.
  intros Hne. split; [|split].
  - apply turn_spec.
  - intros st Hrun. unfold Rwav.allocate. rewrite Hrun.
    split; [done|].
    apply run_invariant with (goods := goods) in Hrun
      as [[Hlen Hidx Hdis Hrem Hun Hturns] Hempty];
      [|by apply initial_invariant].
    rewrite Hempty in Hun, Hturns. rewrite size_empty in Hturns.
    repeat split; try done.
    + rewrite <- Hun. set_solver.
    + lia.
  - intros Htwo. apply run_two_returns with (goods := goods); [done| |done].
    by apply initial_invariant.
Qed.

Lemma allocate_partitions_goods_witness :
  exists st : Rwav.state,
    Rwav.allocate_run Doctests.no_pow
      [Doctests.rwav_family1; Doctests.rwav_family2] Doctests.wxyz = Ok st
    /\ length (Rwav.bundles st) = 2%nat
    /\ Rwav.pairwise_disjoint (Rwav.bundles st)
    /\ ⋃ Rwav.bundles st = Doctests.wxyz
    /\ Rwav.turn_index st = size Doctests.wxyz.
Proof.
  destruct (allocate_partitions_goods Doctests.no_pow
              [Doctests.rwav_family1; Doctests.rwav_family2] Doctests.wxyz)
    as (_ & Hreturned & Hreturns); [discriminate|].
  destruct (Hreturns eq_refl) as [st Hst]. exists st.
  destruct (Hreturned st Hst) as (_ & Hlen & Hdis & Hun & _ & Hturns).
  auto.
Defined.

(** C2 as stated fails: a single family is a non-empty list of families,
    but with k=1 the weight of a member with 0 < s <= r is undefined, and
    [allocate] raises before the first good is picked. *)
Lemma allocate_single_family_raises :
  ~ (forall (pow_term : Z -> Z -> Q) (families : list Families.Family)
            (goods : gset string),
        families <> [] ->
        exists bundles,
          Rwav.allocate pow_term families goods = Ok bundles).
Proof.
  intros H.
  destruct (H Doctests.no_pow [Doctests.loner] Doctests.ab) as [bundles Hb];
    [discriminate|].
  vm_compute in Hb. discriminate.
Qed.

(** * More on the partition generators *)

Section PartitionMore.

Import Partitions.

Context {A : Type}.

Implicit Types (first : A) (p smaller : list (list A)).
Implicit Types (ps smallers : list (list (list A))).

(** The yields that the guard of [partitions_to_at_most_c] drops have more
    than [c] parts. *)
Lemma extend_guard_sublist (c : Z) first smaller :
  extend (fun smaller => Z.of_nat (length smaller) <? c) first smaller
    `sublist_of` extend always first smaller.
Proof.
  unfold extend, always. apply sublist_app; [done|].
  destruct (_ <? _); [done|]. apply sublist_nil_l.
Qed.

Lemma extend_guard_small (c : Z) first smaller p :
  p ∈ extend always first smaller ->
  Z.of_nat (length p) <= c ->
  p ∈ extend (fun smaller => Z.of_nat (length smaller) <? c) first smaller.
Proof.
  unfold extend, always. rewrite !elem_of_app. intros [Hp|Hp] Hc; [by left|].
  right. apply list_elem_of_singleton in Hp as ->. simpl in Hc.
  destruct (Z.ltb_spec (Z.of_nat (length smaller)) c); [by left|lia].
Qed.

Lemma partitions_to_at_most_c_cons (c : Z) first x (rest : list A) ps :
  partitions (first :: x :: rest) = Ok ps ->
  exists smallers,
    partitions (x :: rest) = Ok smallers
    /\ ps = smallers ≫= extend always first
    /\ partitions_to_at_most_c (first :: x :: rest) c =
         Ok (smallers ≫=
               extend (fun smaller => Z.of_nat (length smaller) <? c) first).
Proof.
  intros (smallers & Hs & ->)%partitions_cons. exists smallers.
  split; [done|]. split; [done|].
  unfold partitions_to_at_most_c. by rewrite Hs.
Qed.

Lemma bind_sublist {X Y : Type} (f g : X -> list Y) (l : list X) :
  (forall x, f x `sublist_of` g x) -> l ≫= f `sublist_of` l ≫= g.
Proof.
  intros Hfg. induction l as [|x l IH]; [done|].
  rewrite !bind_cons. by apply sublist_app.
Qed.

Lemma parts_nonempty (l : list A) :
  forall ps p, partitions l = Ok ps -> p ∈ ps ->
               p <> [] /\ Forall (fun part => part <> []) p.
Proof.
  induction l as [|first rest IH]; intros ps p H Hp; [discriminate|].
  destruct rest as [|x rest].
  - injection H as <-. apply list_elem_of_singleton in Hp as ->.
    split; [done|]. by repeat constructor.
  - apply partitions_cons in H as (smallers & Hs & ->).
    apply list_elem_of_bind in Hp as (smaller & Hp & Hsm).
    destruct (IH smallers smaller Hs Hsm) as [Hne Hall].
    apply elem_of_extend in Hp as [(n & subset & Hn & ->)| ->].
    + unfold insert_first. split.
      * intros Hnil. apply (f_equal length) in Hnil.
        rewrite !length_app in Hnil. simpl in Hnil. lia.
      * apply Forall_app. split; [by apply Forall_take|].
        apply Forall_app. split; [by repeat constructor|].
        by apply Forall_drop.
    + split; [done|]. by constructor.
Qed.

End PartitionMore.

(** [partitions_to_at_most_c] never invents a partition and never loses one
    with at most c parts: what it yields is a subsequence of what
    [partitions] yields, and it contains every partition of the collection
    that has at most c parts. *)
Theorem partitions_to_at_most_c_complete {A : Type} (collection : list A)
    (c : Z) (ps : list (list (list A))) :
  Partitions.partitions collection = Ok ps ->
  exists qs : list (list (list A)),
    Partitions.partitions_to_at_most_c collection c = Ok qs
    /\ qs `sublist_of` ps
    /\ forall p, p ∈ ps -> Z.of_nat (length p) <= c -> p ∈ qs.
Proof.
  intros H. destruct collection as [|first [|x rest]]; [discriminate| |].
  - exists ps. injection H as <-. split; [done|]. split; [done|]. auto.
  - apply (partitions_to_at_most_c_cons c) in H as (smallers & _ & -> & ->).
    eexists. split; [done|]. split.
    + apply bind_sublist. intros smaller. apply extend_guard_sublist.
    + intros p (smaller & Hp & Hsm)%list_elem_of_bind Hc.
      apply list_elem_of_bind. exists smaller. split; [|done].
      by apply extend_guard_small.
Qed.

Lemma partitions_to_at_most_c_complete_witness :
  exists qs : list (list (list Z)),
    Partitions.partitions_to_at_most_c [1; 2; 3] 2 = Ok qs
    /\ qs `sublist_of`
         [[[1; 2; 3]]; [[1]; [2; 3]]; [[1; 2]; [3]]; [[2]; [1; 3]];
          [[1]; [2]; [3]]]
    /\ forall p,
         p ∈ [[[1; 2; 3]]; [[1]; [2; 3]]; [[1; 2]; [3]]; [[2]; [1; 3]];
              [[1]; [2]; [3]]] ->
         Z.of_nat (length p) <= 2 -> p ∈ qs.
Proof.
  apply (partitions_to_at_most_c_complete [1; 2; 3] 2). reflexivity.
Defined.

(** No partition that [partitions] yields is empty or has an empty part. *)
Theorem partitions_parts_nonempty {A : Type} (collection : list A)
    (ps : list (list (list A))) (p : list (list A)) :
  Partitions.partitions collection = Ok ps ->
  p ∈ ps ->
  p <> [] /\ Forall (fun part => part <> []) p.
Proof. apply parts_nonempty. Qed.

Lemma partitions_parts_nonempty_witness :
  [[2]; [1; 3]] <> [] /\ Forall (fun part : list Z => part <> []) [[2]; [1; 3]].
Proof.
  apply (partitions_parts_nonempty [1; 2; 3]
           [[[1; 2; 3]]; [[1]; [2; 3]]; [[1; 2]; [3]]; [[2]; [1; 3]];
            [[1]; [2]; [3]]]).
  - reflexivity.
  - apply list_elem_of_In. simpl. auto.
Defined.

Section ExactlyFacts.

Import Partitions.

Context {A : Type}.

Implicit Types (first : A) (p smaller : list (list A)).

Lemma filter_bind {X Y : Type} (P : Y -> Prop) `{!forall y, Decision (P y)}
    (f : X -> list Y) (l : list X) :
  filter P (l ≫= f) = l ≫= (fun x => filter P (f x)).
Proof.
  induction l as [|x l IH]; [done|].
  by rewrite !bind_cons, filter_app, IH.
Qed.

(** The guard only drops yields with more than [c] parts, so it does not
    show after the filter of [partitions_to_exactly_c]. *)
Lemma filter_extend_guard (c : Z) first smaller :
  filter (fun p => Z.of_nat (length p) = c)
         (extend (fun smaller => Z.of_nat (length smaller) <? c) first smaller)
  = filter (fun p => Z.of_nat (length p) = c) (extend always first smaller).
Proof.
  unfold extend, always. rewrite !filter_app. f_equal.
  destruct (Z.ltb_spec (Z.of_nat (length smaller)) c); [done|].
  rewrite filter_cons. rewrite decide_False; [done|]. simpl. lia.
Qed.

Lemma exactly_c_filter (collection : list A) (c : Z) ps :
  partitions collection = Ok ps ->
  partitions_to_exactly_c collection c =
    Ok (filter (fun p => Z.of_nat (length p) = c) ps).
Proof.
  intros H. unfold partitions_to_exactly_c.
  destruct collection as [|first [|x rest]]; [discriminate| |].
  - injection H as <-. reflexivity.
  - apply (partitions_to_at_most_c_cons c) in H as (smallers & _ & -> & ->).
    simpl. f_equal. rewrite !filter_bind.
    induction smallers as [|smaller smallers IH]; [done|].
    by rewrite !bind_cons, IH, filter_extend_guard.
Qed.

Lemma filter_length_count_len (c : Z) (ps : list (list (list A))) :
  0 <= c ->
  length (filter (fun p => Z.of_nat (length p) = c) ps)
  = count_len (Z.to_nat c) ps.
Proof.
  intros Hc. unfold count_len. f_equal.
  apply list_filter_iff. intros p. lia.
Qed.

End ExactlyFacts.

(** Although [partitions_to_at_most_c] lets partitions with too many parts
    through, [partitions_to_exactly_c] is exact: it yields, in the order of
    [partitions], the partitions of the collection that have exactly c
    parts, and for c >= 0 there are S(n,c) of them, the Stirling number of
    the second kind. *)
Theorem partitions_to_exactly_c_stirling {A : Type} (collection : list A)
    (c : Z) (ps : list (list (list A))) :
  Partitions.partitions collection = Ok ps ->
  Partitions.partitions_to_exactly_c collection c =
    Ok (filter (fun p => Z.of_nat (length p) = c) ps)
  /\ (0 <= c ->
      length (filter (fun p => Z.of_nat (length p) = c) ps)
      = Partitions.stirling2 (length collection) (Z.to_nat c)).
Proof.
  intros H. split; [by apply exactly_c_filter|].
  intros Hc. rewrite filter_length_count_len by done.
  by apply partitions_count_len.
Qed.

Lemma partitions_to_exactly_c_stirling_witness :
  Partitions.partitions_to_exactly_c [1; 2; 3] 2 =
    Ok (filter (fun p => Z.of_nat (length p) = 2)
          [[[1; 2; 3]]; [[1]; [2; 3]]; [[1; 2]; [3]]; [[2]; [1; 3]];
           [[1]; [2]; [3]]])
  /\ (0 <= 2 ->
      length (filter (fun p : list (list Z) => Z.of_nat (length p) = 2)
                [[[1; 2; 3]]; [[1]; [2; 3]]; [[1; 2]; [3]]; [[2]; [1; 3]];
                 [[1]; [2]; [3]]])
      = Partitions.stirling2 (length [1; 2; 3]) (Z.to_nat 2)).
Proof.
  apply (partitions_to_exactly_c_stirling [1; 2; 3] 2). reflexivity.
Defined.

(** * [itertools.combinations] and [powerset] *)

Section PowersetFacts.

Import Agents Powerset.

Context {A : Type}.

(** The [c]-combinations of a list are its subsequences of length [c]. *)
Lemma elem_of_combinations (l : list A) :
  forall (c : nat) (x : list A),
    x ∈ combinations l c <-> x `sublist_of` l /\ length x = c.
Proof.
  induction l as [|a l IH]; intros c x.
  - destruct c as [|c]; simpl.
    + rewrite list_elem_of_singleton, sublist_nil_r.
      split; [by intros ->|by intros [-> _]].
    + rewrite elem_of_nil, sublist_nil_r. split; [done|]. by intros [-> ?].
  - destruct c as [|c]; simpl.
    + rewrite list_elem_of_singleton. split.
      * intros ->. split; [apply sublist_nil_l|done].
      * intros [_ Hlen]. by destruct x.
    + rewrite elem_of_app, list_elem_of_fmap, sublist_cons_r, IH. split.
      * intros [(y & -> & [Hy Hlen]%IH)|[Hx Hlen]].
        -- split; [right; eauto|]. simpl. lia.
        -- split; [by left|done].
      * intros [[Hx|(y & -> & Hy)] Hlen].
        -- by right.
        -- left. exists y. split; [done|]. apply IH. simpl in Hlen.
           split; [done|lia].
Qed.

Lemma combinations_count_nil (start m : nat) :
  combinations_count (@nil A) (S start) m = 0%nat.
Proof.
  unfold combinations_count. revert start.
  induction m as [|m IH]; intros start; csimpl; [done|]. by rewrite IH.
Qed.

Lemma combinations_count_cons (a : A) (l : list A) (m : nat) :
  forall start,
    combinations_count (a :: l) (S start) m =
      (combinations_count l start m + combinations_count l (S start) m)%nat.
Proof.
  unfold combinations_count.
  induction m as [|m IH]; intros start; csimpl; [done|].
  rewrite IH, length_app, length_fmap. lia.
Qed.

Lemma combinations_count_zero (l : list A) (m : nat) :
  combinations_count l 0 (S m) = S (combinations_count l 1 m).
Proof. unfold combinations_count. csimpl. by destruct l. Qed.

Lemma combinations_count_all (l : list A) :
  forall m, (length l < m)%nat -> combinations_count l 0 m = (2 ^ length l)%nat.
Proof.
  induction l as [|a l IH]; intros m Hm.
  - destruct m as [|m]; [simpl in Hm; lia|].
    by rewrite combinations_count_zero, combinations_count_nil.
  - destruct m as [|m]; [lia|]. simpl in Hm.
    rewrite combinations_count_zero, combinations_count_cons.
    pose proof (IH m ltac:(lia)) as Hm0.
    pose proof (IH (S m) ltac:(lia)) as Hm1.
    rewrite combinations_count_zero in Hm1.
    change (length (a :: l)) with (S (length l)). rewrite Nat.pow_succ_r'. lia.
Qed.

Lemma length_bind_sum {X Y : Type} (f : X -> list Y) (l : list X) :
  length (l ≫= f) = sum_list ((fun x => length (f x)) <$> l).
Proof.
  induction l as [|x l IH]; [done|].
  rewrite bind_cons, length_app, IH. done.
Qed.

End PowersetFacts.

(** [powerset] yields exactly the subsequences of its input, and it yields
    2^n lists for an input of n elements. *)
Theorem powerset_sublists {A : Type} (iterable : list A) :
  (forall x : list A, x ∈ Powerset.powerset iterable <-> x `sublist_of` iterable)
  /\ length (Powerset.powerset iterable) = (2 ^ length iterable)%nat.
Proof.
  split.
  - intros x. unfold Powerset.powerset. rewrite list_elem_of_bind. split.
    + intros (c & Hx & _). by apply elem_of_combinations in Hx as [Hx _].
    + intros Hx. exists (length x). split.
      * by apply elem_of_combinations.
      * apply elem_of_seq. apply sublist_length in Hx. lia.
  - unfold Powerset.powerset. rewrite length_bind_sum.
    apply (combinations_count_all iterable (S (length iterable))). lia.
Qed.

(** * The balance grows with the goods that remain *)

Section BalanceMonotone.

Import MonotoneFamilies.

Lemma Qavg_ge (a b : Q) : (a <= b -> a <= (a + b) / 2)%Q.
Proof. intros H. apply Qle_shift_div_l; [reflexivity|]. lra. Qed.

Lemma balance_range (r s : Z) : (0 <= balance r s <= 1)%Q.
Proof. apply balance_rec_range. Qed.

Lemma balance_base_one (r s : Z) : s <= 0 -> balance r s = 1%Q.
Proof.
  intros H. rewrite balance_unfold. by destruct (Z.leb_spec s 0); [|lia].
Qed.

Lemma balance_base_zero (r s : Z) : 0 < s -> r < s -> balance r s = 0%Q.
Proof.
  intros H1 H2. rewrite balance_unfold.
  destruct (Z.leb_spec s 0); [lia|]. by destruct (Z.gtb_spec s r); [|lia].
Qed.

Lemma balance_step (r s : Z) :
  0 < s -> s <= r ->
  balance r s =
    Qmin ((balance (r - 1) s + balance (r - 1) (s - 1)) / 2)%Q
         (balance (r - 2) (s - 1)).
Proof.
  intros H1 H2. rewrite balance_unfold at 1.
  destruct (Z.leb_spec s 0); [lia|]. by destruct (Z.gtb_spec s r); [lia|].
Qed.

(** One more remaining good never lowers the balance, and one more
    missing good never raises it. *)
Lemma balance_monotone_upto (n : nat) :
  forall r s : Z,
    r <= Z.of_nat n ->
    (balance (r - 1) s <= balance r s)%Q
    /\ (balance r s <= balance r (s - 1))%Q.
Proof.
  induction n as [|n IH].
  - intros r s Hr.
    destruct (Z.le_gt_cases s 0) as [Hs|Hs].
    + rewrite !balance_base_one by lia. split; apply Qle_refl.
    + rewrite !(balance_base_zero _ s) by lia.
      split; [apply Qle_refl|apply balance_range].
  - assert (Hin : forall r s, r <= Z.of_nat (S n) ->
                    (balance (r - 1) s <= balance r s)%Q).
    { intros r s Hr.
      destruct (Z.le_gt_cases s 0) as [Hs|Hs].
      { rewrite !balance_base_one by lia. apply Qle_refl. }
      destruct (Z.lt_ge_cases r s) as [Hrs|Hrs].
      { rewrite !(balance_base_zero _ s) by lia. apply Qle_refl. }
      rewrite (balance_step r s) by lia.
      apply Q.min_glb.
      - apply Qavg_ge. apply (IH (r - 1) s). lia.
      - destruct (Z.lt_ge_cases (r - 1) s) as [Hrs'|Hrs'].
        + rewrite (balance_base_zero (r - 1) s) by lia. apply balance_range.
        + rewrite (balance_step (r - 1) s) by lia.
          eapply Qle_trans; [apply Q.le_min_r|].
          replace (r - 1 - 2) with (r - 2 - 1) by lia.
          apply (IH (r - 2) (s - 1)). lia. }
    intros r s Hr. split; [by apply Hin|].
    destruct (Z.le_gt_cases s 0) as [Hs|Hs].
    { rewrite !balance_base_one by lia. apply Qle_refl. }
    destruct (Z.lt_ge_cases r s) as [Hrs|Hrs].
    { rewrite (balance_base_zero r s) by lia. apply balance_range. }
    rewrite (balance_step r s) by lia.
    eapply Qle_trans; [apply Q.le_min_r|].
    eapply Qle_trans; [|apply (Hin r (s - 1) Hr)].
    replace (r - 2) with (r - 1 - 1) by lia.
    apply (IH (r - 1) (s - 1)). lia.
Qed.

Lemma balance_monotone (r s : Z) :
  (balance (r - 1) s <= balance r s)%Q
  /\ (balance r s <= balance r (s - 1))%Q.
Proof. apply (balance_monotone_upto (Z.to_nat r)). lia. Qed.

End BalanceMonotone.

(** With two families the balance never falls when one more wanted good
    remains and never rises when one more good is missing, so that the
    voting weight, the gain in balance from one more remaining good, is
    never negative and never above 1. *)
Theorem weight_in_unit_interval (r s : Z) :
  (MonotoneFamilies.balance (r - 1) s <= MonotoneFamilies.balance r s)%Q
  /\ (MonotoneFamilies.balance r s <= MonotoneFamilies.balance r (s - 1))%Q
  /\ (0 <= MonotoneFamilies.weight r s <= 1)%Q
  /\ forall pow_term : Z -> Z -> Q,
       exists w : Q, Rwav.weight pow_term r s 2 = Ok w /\ (0 <= w <= 1)%Q.
Proof.
  destruct (balance_monotone r s) as [Hr Hs].
  pose proof (balance_range r s) as [H0 H1].
  pose proof (balance_range (r - 1) s) as [H0' H1'].
  assert (Hw : (0 <= MonotoneFamilies.weight r s <= 1)%Q).
  { unfold MonotoneFamilies.weight. split; lra. }
  repeat split; try done; try apply Hw.
  intros pow_term. exists (MonotoneFamilies.weight r s).
  split; [apply rwav_weight_two|exact Hw].
Qed.

(** A member who is owed nothing (s <= 0), or who can no longer reach the
    target (s > r), has voting weight 0, whatever the number of families. *)
Theorem weight_zero_outside (pow_term : Z -> Z -> Q) (r s k : Z) :
  s <= 0 \/ r < s ->
  (MonotoneFamilies.weight r s == 0)%Q
  /\ exists w : Q, Rwav.weight pow_term r s k = Ok w /\ (w == 0)%Q.
Proof.
  intros Hs. split.
  - unfold MonotoneFamilies.weight. destruct Hs as [Hs|Hs].
    + rewrite !balance_base_one by done. reflexivity.
    + destruct (Z.le_gt_cases s 0).
      * rewrite !balance_base_one by done. reflexivity.
      * rewrite !(balance_base_zero _ s) by lia. reflexivity.
  - unfold Rwav.weight, Rwav.balance.
    assert (Hbase : forall fuel r', r' <= r ->
              Rwav.balance_rec pow_term fuel r' s k
              = Ok (if s <=? 0 then 1%Q else 0%Q)).
    { intros fuel r' Hr'. destruct fuel; simpl;
        destruct (Z.leb_spec s 0); try reflexivity;
        destruct (Z.gtb_spec s r'); try reflexivity; lia. }
    rewrite !Hbase by lia. simpl. eexists. split; [reflexivity|].
    destruct (s <=? 0); reflexivity.
Qed.

Lemma weight_zero_outside_witness :
  (MonotoneFamilies.weight 4 3 == 0)%Q
  /\ exists w : Q, Rwav.weight Doctests.no_pow 4 (-2) 3 = Ok w /\ (w == 0)%Q.
Proof.
  split.
  - vm_compute. reflexivity.
  - apply (weight_zero_outside Doctests.no_pow 4 (-2) 3). left. lia.
Defined.

(** * The good a family chooses *)

Section ChooseFacts.

Import Agents Families Rwav.

Lemma string_compare_refl (s : string) : String.compare s s = Eq.
Proof.
  induction s as [|a s IH]; simpl; [done|].
  unfold Ascii.compare. by rewrite N.compare_refl.
Qed.

Lemma string_compare_lt_trans (s1 : string) :
  forall s2 s3 : string,
    String.compare s1 s2 = Lt -> String.compare s2 s3 = Lt ->
    String.compare s1 s3 = Lt.
Proof.
  induction s1 as [|a1 s1 IH]; intros [|a2 s2] [|a3 s3]; simpl; try done.
  unfold Ascii.compare.
  destruct (N.compare_spec (Ascii.N_of_ascii a1) (Ascii.N_of_ascii a2))
    as [H12|H12|H12]; [|  |done];
    destruct (N.compare_spec (Ascii.N_of_ascii a2) (Ascii.N_of_ascii a3))
      as [H23|H23|H23]; try done; intros Hs12 Hs23.
  - rewrite H12, H23, N.compare_refl. by eapply IH.
  - rewrite H12. by apply N.compare_lt_iff in H23 as ->.
  - rewrite <- H23. by apply N.compare_lt_iff in H12 as ->.
  - assert (Ascii.N_of_ascii a1 < Ascii.N_of_ascii a3)%N as H13
      by (by etrans).
    by apply N.compare_lt_iff in H13 as ->.
Qed.

Lemma key_lt_spec (k1 k2 : Q * string) :
  key_lt k1 k2 = true <->
  (k1.1 < k2.1)%Q \/ ((k1.1 == k2.1)%Q /\ String.compare k1.2 k2.2 = Lt).
Proof.
  unfold key_lt, String.ltb.
  destruct (Qcompare_spec k1.1 k2.1) as [H|H|H].
  - destruct (String.compare k1.2 k2.2); split; try done;
      try (intros [Hlt|[_ ?]]; [rewrite H in Hlt; by apply Qlt_irrefl in Hlt
                               |done]).
    intros _. by right.
  - split; [by left|done].
  - split; [done|]. intros [Hlt|[Heq _]].
    + exfalso. apply (Qlt_irrefl k1.1). by etrans.
    + rewrite Heq in H. by apply Qlt_irrefl in H.
Qed.

Lemma key_lt_trans (k1 k2 k3 : Q * string) :
  key_lt k1 k2 = true -> key_lt k2 k3 = true -> key_lt k1 k3 = true.
Proof.
  rewrite !key_lt_spec. intros [H12|[E12 S12]] [H23|[E23 S23]].
  - left. by etrans.
  - left. by rewrite <- E23.
  - left. by rewrite E12.
  - right. split; [by rewrite E12|]. by eapply string_compare_lt_trans.
Qed.

Lemma key_lt_irrefl (k : Q * string) : key_lt k k = false.
Proof.
  destruct (key_lt k k) eqn:H; [|done].
  apply key_lt_spec in H as [Hlt|[_ Hs]].
  - by apply Qlt_irrefl in Hlt.
  - by rewrite string_compare_refl in Hs.
Qed.

(** [min] returns an element that no element of the list is below. *)
Lemma foldl_min_by {X : Type} (key : X -> Q * string) (l : list X) :
  forall x b,
    b = foldl (fun best y => if key_lt (key y) (key best) then y else best)
          x l ->
    (b = x \/ key_lt (key b) (key x) = true)
    /\ forall y, y ∈ l -> key_lt (key y) (key b) = false.
Proof.
  induction l as [|z l IH]; intros x b Hb; simpl in Hb.
  - split; [by left|]. intros y Hy. by apply elem_of_nil in Hy.
  - destruct (key_lt (key z) (key x)) eqn:Hzx.
    + destruct (IH z b Hb) as [Hbest Hall]. split.
      * right. destruct Hbest as [->|Hbest]; [done|].
        by eapply key_lt_trans.
      * intros y Hy. apply elem_of_cons in Hy as [Hyz|Hy]; [|by apply Hall].
        subst y. destruct Hbest as [->|Hbest]; [apply key_lt_irrefl|].
        destruct (key_lt (key z) (key b)) eqn:Hzb; [|done].
        pose proof (key_lt_trans _ _ _ Hzb Hbest) as Hzz.
        by rewrite key_lt_irrefl in Hzz.
    + destruct (IH x b Hb) as [Hbest Hall]. split; [done|].
      intros y Hy. apply elem_of_cons in Hy as [Hyz|Hy]; [|by apply Hall].
      subst y. destruct Hbest as [->|Hbest]; [done|].
      destruct (key_lt (key z) (key b)) eqn:Hzb; [|done].
      pose proof (key_lt_trans _ _ _ Hzb Hbest) as Hzx'. congruence.
Qed.

Lemma min_by_least {X : Type} (key : X -> Q * string) (l : list X) (x : X) :
  min_by key l = Ok x ->
  forall y, y ∈ l -> key_lt (key y) (key x) = false.
Proof.
  destruct l as [|z l]; [discriminate|]. intros [= Hx] y Hy.
  destruct (foldl_min_by key l z x (eq_sym Hx)) as [Hbest Hall].
  apply elem_of_cons in Hy as [Hyz|Hy]; [|by apply Hall].
  subst y. destruct Hbest as [->|Hbest]; [apply key_lt_irrefl|].
  destruct (key_lt (key z) (key x)) eqn:Hzx; [|done].
  pose proof (key_lt_trans _ _ _ Hzx Hbest) as Hzz.
  by rewrite key_lt_irrefl in Hzz.
Qed.

End ChooseFacts.

(** The family chooses a remaining good of the largest total weight, and
    among the remaining goods of that weight the one whose name comes
    first; on an empty pool it raises, when the votes can be counted. *)
Theorem choose_good_heaviest (pow_term : Z -> Z -> Q)
    (family : list (Agents.BinaryAgent * Z))
    (owned_goods remaining_goods : gset string) (num_of_families : Z)
    (weights : gmap string Q) :
  Rwav.votes pow_term owned_goods remaining_goods num_of_families ∅ family
    = Ok weights ->
  (remaining_goods = ∅ ->
   Rwav.choose_good pow_term family owned_goods remaining_goods
     num_of_families = Raise ValueError)
  /\ (remaining_goods <> ∅ ->
      exists g : string,
        Rwav.choose_good pow_term family owned_goods remaining_goods
          num_of_families = Ok g
        /\ g ∈ remaining_goods
        /\ forall g' : string,
             g' ∈ remaining_goods ->
             (Rwav.total_weight weights g' <= Rwav.total_weight weights g)%Q
             /\ ((Rwav.total_weight weights g'
                  == Rwav.total_weight weights g)%Q ->
                 String.leb g g' = true)).
Proof.
  intros Hvotes. unfold Rwav.choose_good. rewrite Hvotes. simpl. split.
  - intros ->. by rewrite elements_empty.
  - intros Hne.
    destruct (min_by_returns
                (fun good => ((- Rwav.total_weight weights good)%Q, good))
                (elements remaining_goods)) as [g Hg].
    { intros Hnil. apply Hne. apply leibniz_equiv.
      by apply elements_empty_iff. }
    exists g. split; [done|]. split.
    { apply elem_of_elements. by eapply min_by_elem_of. }
    intros g' Hg'. apply elem_of_elements in Hg'.
    pose proof (min_by_least _ _ _ Hg g' Hg') as Hleast.

    destruct (Qcompare_spec (Rwav.total_weight weights g')
                (Rwav.total_weight weights g)) as [Heq|Hlt|Hgt].
    + split; [by rewrite Heq; apply Qle_refl|]. intros _.
      unfold String.leb.
      destruct (String.compare g g') eqn:Hc; try done.
      assert (Rwav.key_lt ((- Rwav.total_weight weights g')%Q, g')
                ((- Rwav.total_weight weights g)%Q, g) = true) as Habs.
      { apply key_lt_spec. right. simpl. split; [by rewrite Heq|].
        rewrite String.compare_antisym, Hc. done. }
      congruence.
    + split; [by apply Qlt_le_weak|]. intros Heq. rewrite Heq in Hlt.
      by apply Qlt_irrefl in Hlt.
    + assert (Rwav.key_lt ((- Rwav.total_weight weights g')%Q, g')
                ((- Rwav.total_weight weights g)%Q, g) = true) as Habs.
      { apply key_lt_spec. left. simpl. by apply Qopp_lt_compat. }
      congruence.
Qed.

Lemma choose_good_heaviest_witness :
  exists g : string,
    Rwav.choose_good Doctests.no_pow MoreDoctests.choosers ∅
      MoreDoctests.xyz 2 = Ok g
    /\ g ∈ MoreDoctests.xyz
    /\ forall g' : string,
         g' ∈ MoreDoctests.xyz ->
         (Rwav.total_weight MoreDoctests.choosers_weights g'
          <= Rwav.total_weight MoreDoctests.choosers_weights g)%Q
         /\ ((Rwav.total_weight MoreDoctests.choosers_weights g'
              == Rwav.total_weight MoreDoctests.choosers_weights g)%Q ->
             String.leb g g' = true).
Proof.
  apply (choose_good_heaviest Doctests.no_pow MoreDoctests.choosers ∅
           MoreDoctests.xyz 2 MoreDoctests.choosers_weights).
  - vm_compute. reflexivity.
  - intros H. apply (f_equal elements) in H. vm_compute in H. discriminate.
Defined.

(** * The fairness tests *)

Section FairnessFacts.

Import Agents Fairness.

(** The valuation of a larger bundle is not smaller (as C9, for reuse). *)
Lemma value_subseteq (a : Agent) (X Y : gset string) (x y : Z) :
  monotone_valuation a -> X ⊆ Y ->
  value a X = Ok x -> value a Y = Ok y -> x <= y.
Proof.
  intros Hmono HXY Hx Hy. destruct a as [m|d|b]; simpl in *.
  - unfold MonotoneAgent_value in *.
    destruct (map_bundle_to_value m !! X) as [x'|] eqn:HX; [|discriminate].
    destruct (map_bundle_to_value m !! Y) as [y'|] eqn:HY; [|discriminate].
    simplify_eq. by eapply Hmono.
  - apply AdditiveAgent_value_list_Ok in Hx, Hy. subst x y.
    apply sum_Z_submseteq.
    + by apply fmap_submseteq, elements_submseteq.
    + by apply good_value_or_0_nonneg.
  - injection Hx as <-. injection Hy as <-. unfold BinaryAgent_value.
    apply inj_le, subseteq_size.
    intros g Hg. apply elem_of_intersection in Hg as [Hg1 Hg2].
    apply elem_of_intersection. split; [done|]. by apply HXY.
Qed.

Lemma MonotoneAgent_init_empty items card (m : MonotoneAgent) :
  MonotoneAgent_init items card = Ok m ->
  map_bundle_to_value m !! ∅ = Some 0.
Proof.
  unfold MonotoneAgent_init.
  destruct (max_Z (snd <$> items)) as [total|e]; [|discriminate].
  intros [= <-]. simpl. apply lookup_insert_eq.
Qed.

Lemma value_empty (a : Agent) : constructible a -> value a ∅ = Ok 0.
Proof.
  intros [items card m Hm|table card|desired card]; simpl.
  - unfold MonotoneAgent_value. by rewrite (MonotoneAgent_init_empty _ _ _ Hm).
  - unfold AdditiveAgent_value. by rewrite elements_empty.
  - unfold BinaryAgent_value.
    replace (desired ∩ ∅) with (∅ : gset string); [done|].
    apply set_eq. intros g. rewrite elem_of_intersection, elem_of_empty.
    tauto.
Qed.

Lemma value_nonneg (a : Agent) (X : gset string) (x : Z) :
  constructible a -> monotone_valuation a -> value a X = Ok x -> 0 <= x.
Proof.
  intros Hc Hmono Hx.
  apply (value_subseteq a ∅ X 0 x Hmono); [|by apply value_empty|done].
  intros g Hg. by apply elem_of_empty in Hg.
Qed.

Lemma additive_best_le_worst (a : AdditiveAgent) (bundle : gset string)
    (c lo hi : Z) :
  0 <= c ->
  AdditiveAgent_value_except_best_c_goods a bundle c = Ok lo ->
  AdditiveAgent_value_except_worst_c_goods a bundle c = Ok hi ->
  lo <= hi.
Proof.
  intros Hc Hlo Hhi.
  unfold AdditiveAgent_value_except_best_c_goods in Hlo.
  unfold AdditiveAgent_value_except_worst_c_goods in Hhi.
  destruct (Z.leb_spec (Z.of_nat (size bundle)) c) as [|Hsize];
    [by simplify_eq|].
  destruct (AdditiveAgent_sorted a (-1) bundle) as [best_first|e] eqn:Hbest;
    [|discriminate].
  destruct (AdditiveAgent_sorted a 1 bundle) as [worst_first|e] eqn:Hworst;
    [|discriminate].
  simpl in Hlo, Hhi.
  apply AdditiveAgent_sorted_Ok in Hbest, Hworst.
  apply AdditiveAgent_value_list_Ok in Hlo, Hhi.
  unfold slice_from in Hlo, Hhi.
  destruct (Z.ltb_spec c 0); [lia|].
  rewrite fmap_drop in Hlo, Hhi.
  set (vals := good_value_or_0 a <$> elements bundle) in *.
  assert (Hlen : length vals = size bundle) by apply length_fmap.
  assert (Hasc : StronglySorted Z.le (good_value_or_0 a <$> worst_first)).
  { rewrite Hworst.
    rewrite (list_fmap_ext (good_value_or_0 a)
               (fun g => 1 * good_value_or_0 a g) _)
      by (intros; lia).
    rewrite (sorted_keyed_values (fun g => 1 * good_value_or_0 a g)).
    apply sorted_sorted. }
  assert (Hpw : good_value_or_0 a <$> worst_first ≡ₚ vals).
  { rewrite Hworst. unfold vals. by rewrite sorted_keyed_perm. }
  assert (Hpb : good_value_or_0 a <$> best_first ≡ₚ vals).
  { rewrite Hbest. unfold vals. by rewrite sorted_keyed_perm. }
  subst lo hi. apply sum_Z_drop_sorted; [done| |].
  - rewrite Hpw, <- Hpb. apply sublist_submseteq, sublist_drop.
  - rewrite length_drop, (Permutation_length Hpb), (Permutation_length Hpw).
    lia.
Qed.

Lemma additive_worst_le_value (a : AdditiveAgent) (bundle : gset string)
    (c hi v : Z) :
  nonnegative_goods (map_good_to_value a) ->
  0 <= c ->
  AdditiveAgent_value_except_worst_c_goods a bundle c = Ok hi ->
  AdditiveAgent_value a bundle = Ok v ->
  hi <= v.
Proof.
  intros Hnn Hc Hhi Hv.
  apply AdditiveAgent_value_list_Ok in Hv.
  assert (0 <= v).
  { subst v. by apply sum_Z_nonneg, good_value_or_0_nonneg. }
  unfold AdditiveAgent_value_except_worst_c_goods in Hhi.
  destruct (Z.leb_spec (Z.of_nat (size bundle)) c) as [|Hsize];
    [by simplify_eq|].
  destruct (AdditiveAgent_sorted a 1 bundle) as [worst_first|e] eqn:Hworst;
    [|discriminate].
  simpl in Hhi.
  apply AdditiveAgent_sorted_Ok in Hworst.
  apply AdditiveAgent_value_list_Ok in Hhi.
  unfold slice_from in Hhi. destruct (Z.ltb_spec c 0); [lia|].
  rewrite fmap_drop in Hhi.
  assert (Hpw : good_value_or_0 a <$> worst_first
                ≡ₚ good_value_or_0 a <$> elements bundle).
  { rewrite Hworst. by rewrite sorted_keyed_perm. }
  subst hi v. rewrite <- (sum_Z_perm _ _ Hpw).
  rewrite <- (take_drop (Z.to_nat c) (good_value_or_0 a <$> worst_first)) at 2.
  rewrite sum_Z_app.
  assert (0 <= sum_Z (take (Z.to_nat c)
                        (good_value_or_0 a <$> worst_first))); [|lia].
  apply sum_Z_nonneg, Forall_take. by apply good_value_or_0_nonneg.
Qed.

Lemma except_best_le_worst (a : Agent) (bundle : gset string) (c lo hi : Z) :
  0 <= c ->
  value_except_best_c_goods a bundle c = Ok lo ->
  value_except_worst_c_goods a bundle c = Ok hi ->
  lo <= hi.
Proof.
  intros Hc Hlo Hhi. destruct a as [m|d|b]; simpl in *.
  - unfold Agent_value_except_best_c_goods in Hlo.
    unfold Agent_value_except_worst_c_goods in Hhi.
    destruct (Z.leb_spec (Z.of_nat (size bundle)) c); [by simplify_eq|].
    destruct (values_except_c m bundle c) as [vs|e]; [|discriminate].
    simpl in Hlo, Hhi.
    apply min_Z_spec in Hlo as [Hlo_in Hlo].
    apply max_Z_spec in Hhi as [Hhi_in Hhi]. by apply Hhi.
  - exact (additive_best_le_worst d bundle c lo hi Hc Hlo Hhi).
  - simplify_eq.
    unfold BinaryAgent_value_except_best_c_goods,
      BinaryAgent_value_except_worst_c_goods. lia.
Qed.

Lemma except_worst_le_value (a : Agent) (bundle : gset string) (c hi v : Z) :
  monotone_valuation a -> 0 <= c -> 0 <= v ->
  value_except_worst_c_goods a bundle c = Ok hi ->
  value a bundle = Ok v ->
  hi <= v.
Proof.
  intros Hmono Hc Hv0 Hhi Hv. destruct a as [m|d|b]; simpl in *.
  - unfold Agent_value_except_worst_c_goods in Hhi.
    destruct (Z.leb_spec (Z.of_nat (size bundle)) c); [by simplify_eq|].
    destruct (values_except_c m bundle c) as [vs|e] eqn:Hvs; [|discriminate].
    simpl in Hhi. apply max_Z_spec in Hhi as [Hhi_in _].
    by eapply values_except_c_bound.
  - exact (additive_worst_le_value d bundle c hi v Hmono Hc Hhi Hv).
  - simplify_eq. unfold BinaryAgent_value_except_worst_c_goods.
    destruct (Z.leb_spec (Z.of_nat (size bundle)) c); lia.
Qed.

(** A test at a lower bar passes when the test at the higher bar does. *)
Lemma no_envy_weaker (own_value : Z) (low high : gset string -> result Z)
    (all_bundles : list (gset string)) (b : bool) :
  (forall bundle lo hi, low bundle = Ok lo -> high bundle = Ok hi -> lo <= hi) ->
  no_envy own_value high all_bundles = Ok true ->
  no_envy own_value low all_bundles = Ok b ->
  b = true.
Proof.
  intros Hle. induction all_bundles as [|other rest IH]; simpl.
  - by intros _ [= <-].
  - destruct (high other) as [hi|e] eqn:Hhi; [|discriminate].
    destruct (low other) as [lo|e] eqn:Hlo; [|discriminate]. simpl.
    destruct (Z.ltb_spec own_value hi); [discriminate|].
    pose proof (Hle other lo hi Hlo Hhi).
    destruct (Z.ltb_spec own_value lo); [lia|]. apply IH.
Qed.

Lemma no_envy_richer (own_value own_value' : Z)
    (other_value : gset string -> result Z)
    (all_bundles : list (gset string)) :
  own_value <= own_value' ->
  no_envy own_value other_value all_bundles = Ok true ->
  no_envy own_value' other_value all_bundles = Ok true.
Proof.
  intros Hle. induction all_bundles as [|other rest IH]; simpl; [done|].
  destruct (other_value other) as [v|e]; [|discriminate]. simpl.
  destruct (Z.ltb_spec own_value v); [discriminate|].
  destruct (Z.ltb_spec own_value' v); [lia|]. apply IH.
Qed.

End FairnessFacts.

(** Every agent built by one of the three constructors values the empty
    bundle at 0. *)
Theorem value_of_empty_bundle (a : Agents.Agent) :
  Agents.constructible a -> Agents.value a ∅ = Ok 0.
Proof. apply value_empty. Qed.

Lemma value_of_empty_bundle_witness :
  Agents.value
    (Agents.Binary (Agents.BinaryAgent_init {["x"%string; "y"%string]} 1)) ∅
  = Ok 0.
Proof.
  apply (value_of_empty_bundle
           (Agents.Binary
              (Agents.BinaryAgent_init {["x"%string; "y"%string]} 1))).
  constructor.
Defined.

(** Envy-freeness implies EFx, and EFx implies EF1: when [is_EF] returns
    True for a constructed agent with a monotone valuation, [is_EFx] does
    not return False; and when [is_EFx] returns True for any agent,
    [is_EF1] does not return False. *)
Theorem envy_free_chain (a : Agents.Agent) (own_bundle : gset string)
    (all_bundles : list (gset string)) :
  (Agents.constructible a -> Agents.monotone_valuation a ->
   Fairness.is_EF a own_bundle all_bundles = Ok true ->
   forall b, Fairness.is_EFx a own_bundle all_bundles = Ok b -> b = true)
  /\ (Fairness.is_EFx a own_bundle all_bundles = Ok true ->
      forall b, Fairness.is_EF1 a own_bundle all_bundles = Ok b -> b = true).
Proof.
  split.
  - intros Hc Hmono. unfold Fairness.is_EF, Fairness.is_EFx.
    destruct (Agents.value a own_bundle) as [own|e]; [|discriminate]. simpl.
    intros Hef b Hefx.
    eapply (no_envy_weaker own _ (Agents.value a)); [|exact Hef|exact Hefx].
    intros bundle hi v Hhi Hv. simpl in Hhi.
    eapply except_worst_le_value; eauto; [lia|].
    by eapply value_nonneg.
  - unfold Fairness.is_EFx, Fairness.is_EF1, Fairness.is_EFc.
    destruct (Agents.value a own_bundle) as [own|e]; [|discriminate]. simpl.
    intros Hefx b Hef1.
    eapply (no_envy_weaker own); [|exact Hefx|exact Hef1].
    intros bundle lo hi Hlo Hhi. simpl in *.
    eapply except_best_le_worst; eauto. lia.
Qed.

(** Getting more goods does not break fairness: for an agent with a
    monotone valuation, if a test passes with a bundle it passes with every
    larger bundle that the agent can value. *)
Theorem more_goods_keep_fairness (a : Agents.Agent)
    (own_bundle larger_bundle : gset string) (v : Z)
    (all_bundles : list (gset string)) :
  Agents.monotone_valuation a ->
  own_bundle ⊆ larger_bundle ->
  Agents.value a larger_bundle = Ok v ->
  (Fairness.is_EF a own_bundle all_bundles = Ok true ->
   Fairness.is_EF a larger_bundle all_bundles = Ok true)
  /\ (Fairness.is_EFx a own_bundle all_bundles = Ok true ->
      Fairness.is_EFx a larger_bundle all_bundles = Ok true)
  /\ (forall c,
        Fairness.is_EFc a own_bundle all_bundles c = Ok true ->
        Fairness.is_EFc a larger_bundle all_bundles c = Ok true)
  /\ (forall num_of_agents,
        0 <= num_of_agents ->
        Fairness.is_PROP a own_bundle num_of_agents = Ok true ->
        Fairness.is_PROP a larger_bundle num_of_agents = Ok true).
Proof.
  intros Hmono Hsub Hv.
  unfold Fairness.is_EF, Fairness.is_EFx, Fairness.is_EFc, Fairness.is_PROP.
  rewrite Hv. simpl.
  destruct (Agents.value a own_bundle) as [own|e] eqn:Hown;
    [|by repeat split; intros; discriminate]. simpl.
  pose proof (value_subseteq a _ _ _ _ Hmono Hsub Hown Hv) as Hle.
  split; [by apply no_envy_richer|].
  split; [by apply no_envy_richer|].
  split; [intros c; by apply no_envy_richer|].
  intros n Hn [= Hp]. f_equal.
  apply Z.leb_le in Hp. apply Z.leb_le. nia.
Qed.

(** [is_PROPc] never returns for a MonotoneAgent: it raises ValueError when
    the own bundle is not in the table, and else AttributeError for the
    missing field [desired_goods]. *)
Theorem is_PROPc_monotone_raises (m : Agents.MonotoneAgent)
    (own_bundle : gset string) (num_of_agents c : Z) :
  Fairness.is_PROPc (Agents.Monotone m) own_bundle num_of_agents c =
    match Agents.map_bundle_to_value m !! own_bundle with
    | Some _ => Raise AttributeError
    | None => Raise ValueError
    end.
Proof.
  unfold Fairness.is_PROPc. simpl. unfold Agents.MonotoneAgent_value.
  by destruct (Agents.map_bundle_to_value m !! own_bundle).
Qed.

Lemma envy_free_chain_witness :
  let a := Agents.Additive
             (Agents.AdditiveAgent_init
                (<["x"%string := 1]>
                   (<["y"%string := 2]> (<["z"%string := 4]> ∅))) 1) in
  Fairness.is_EF a {["z"%string]} [{["x"%string; "y"%string]}] = Ok true
  /\ Fairness.is_EFx a {["z"%string]} [{["x"%string; "y"%string]}] = Ok true.
Proof.
  intros a.
  assert (Hc : Agents.constructible a) by constructor.
  assert (Hmono : Agents.monotone_valuation a).
  { intros g v Hg. simpl in Hg.
    apply lookup_insert_Some in Hg as [[_ <-]|[_ Hg]]; [lia|].
    apply lookup_insert_Some in Hg as [[_ <-]|[_ Hg]]; [lia|].
    apply lookup_insert_Some in Hg as [[_ <-]|[_ Hg]]; [lia|].
    by rewrite lookup_empty in Hg. }
  assert (Hef : Fairness.is_EF a {["z"%string]} [{["x"%string; "y"%string]}]
                = Ok true) by (vm_compute; reflexivity).
  split; [exact Hef|].
  assert (Hefx : Fairness.is_EFx a {["z"%string]}
                   [{["x"%string; "y"%string]}] = Ok true)
    by (vm_compute; reflexivity).
  pose proof (proj1 (envy_free_chain a {["z"%string]}
                       [{["x"%string; "y"%string]}]) Hc Hmono Hef true Hefx)
    as Hchain.
  exact Hefx.
Defined.

Lemma more_goods_keep_fairness_witness :
  let a := Agents.Binary
             (Agents.BinaryAgent_init
                {["x"%string; "y"%string; "z"%string]} 1) in
  Fairness.is_EF a {["x"%string]} [{["z"%string]}] = Ok true
  /\ Fairness.is_EF a {["x"%string; "y"%string]} [{["z"%string]}] = Ok true.
Proof.
  intros a.
  assert (Hsmall : Fairness.is_EF a {["x"%string]} [{["z"%string]}] = Ok true)
    by (vm_compute; reflexivity).
  assert (Hsub : ({["x"%string]} : gset string)
                 ⊆ {["x"%string; "y"%string]}).
  { intros g Hg. apply elem_of_union. by left. }
  assert (Hv : Agents.value a {["x"%string; "y"%string]} = Ok 2)
    by (vm_compute; reflexivity).
  split; [exact Hsmall|].
  exact (proj1 (more_goods_keep_fairness a {["x"%string]}
                  {["x"%string; "y"%string]} 2 [{["z"%string]}]
                  I Hsub Hv) Hsmall).
Defined.

(** * Where an additive valuation is defined *)

Section AdditiveDefined.

Import Agents.

Lemma mapM_good_value (a : AdditiveAgent) (l : list string) :
  mapM (good_value a) l =
    if decide (Forall (fun g => g ∈ dom (map_good_to_value a)) l)
    then Ok (good_value_or_0 a <$> l)
    else Raise KeyError.
Proof.
  induction l as [|g l IH].
  - by rewrite decide_True by constructor.
  - change (mapM (good_value a) (g :: l))
      with (y ← good_value a g; k ← mapM (good_value a) l; Ok (y :: k)).
    rewrite IH. unfold good_value, good_value_or_0.
    destruct (map_good_to_value a !! g) as [v|] eqn:Hg; simpl.
    + assert (g ∈ dom (map_good_to_value a)) by (apply elem_of_dom; eauto).
      destruct (decide (Forall _ l)) as [Hl|Hl]; simpl.
      * rewrite decide_True by (by constructor). by rewrite Hg.
      * rewrite decide_False; [done|]. by intros [_ ?]%Forall_cons.
    + rewrite decide_False; [done|]. intros [Hin _]%Forall_cons.
      apply elem_of_dom in Hin as [v Hv]. congruence.
Qed.

End AdditiveDefined.

(** An additive agent values exactly the bundles made of goods it has a
    value for: on such a bundle [value] is the sum of the values of its
    goods, and on any other bundle it raises KeyError. *)
Theorem additive_value_defined (a : Agents.AdditiveAgent)
    (goods : gset string) :
  Agents.value (Agents.Additive a) goods =
    if decide (goods ⊆ dom (Agents.map_good_to_value a))
    then Ok (Agents.sum_Z (Agents.good_value_or_0 a <$> elements goods))
    else Raise KeyError.
Proof.
  simpl. unfold Agents.AdditiveAgent_value, Agents.AdditiveAgent_value_list.
  rewrite mapM_good_value.
  destruct (decide (Forall _ (elements goods))) as [Hall|Hall].
  - rewrite decide_True; [done|]. intros g Hg.
    rewrite Forall_forall in Hall. apply Hall. by apply elem_of_elements.
  - rewrite decide_False; [done|]. intros Hsub. apply Hall.
    apply Forall_forall. intros g Hg. apply Hsub. by apply elem_of_elements.
Qed.

(** * Enhanced RWAV splits the goods *)

Section EnhancedPartition.

Import Agents Families MonotoneFamilies.



End EnhancedPartition.



Section EnhancedNames.

Import Agents Families MonotoneFamilies.

Lemma chars_length (g x : string) : x ∈ chars g -> String.length x = 1%nat.
Proof.
  induction g as [|a g IH]; simpl.
  - intros H. by apply elem_of_nil in H.
  - intros [->|H]%elem_of_cons; [done|by apply IH].
Qed.

Lemma not_elem_of_set_of_string (g : string) :
  String.length g <> 1%nat -> g ∉ set_of_string g.
Proof.
  intros Hlen Hg. unfold set_of_string in Hg.
  apply elem_of_list_to_set in Hg. by apply chars_length in Hg.
Qed.

End EnhancedNames.

(** A good with a longer name is taken for the set of its characters:
    when the only good has a name of more than one character (or the empty
    name) and enough members of the first family want it, that family
    receives the characters of the name, none of which is the good, and the
    other family receives the good. *)
Theorem enhanced_RWAV_long_name (pow_term : Z -> Z -> Q)
    (family0 family1 : Families.Family) (g : string) (threshold : Q) :
  String.length g <> 1%nat ->
  MonotoneFamilies.reaches
    (threshold * inject_Z (Families.num_of_members family0))%Q
    (Families.num_of_members_who_want g family0) ->
  MonotoneFamilies.allocate_using_enhanced_RWAV pow_term
    [family0; family1] {[g]} threshold
  = Ok [Agents.set_of_string g; {[g]}]
  /\ g ∉ Agents.set_of_string g.
Proof.
  intros Hlen Hreach.
  pose proof (not_elem_of_set_of_string g Hlen) as Hnot.
  split; [|done].
  unfold MonotoneFamilies.allocate_using_enhanced_RWAV.
  rewrite elements_singleton. simpl.
  unfold MonotoneFamilies.reaches in Hreach. rewrite Hreach.
  do 3 f_equal. apply set_eq. intros x.
  rewrite elem_of_difference, elem_of_singleton.
  split; [tauto|]. intros ->. done.
Qed.

Lemma enhanced_RWAV_long_name_witness :
  MonotoneFamilies.allocate_using_enhanced_RWAV Doctests.no_pow
    [Doctests.family "f" [Doctests.wants ["ab"%string] 1]; Doctests.rival2]
    {["ab"%string]} (1 # 2)
  = Ok [Agents.set_of_string "ab"; {["ab"%string]}]
  /\ "ab"%string ∉ Agents.set_of_string "ab".
Proof.
  apply (enhanced_RWAV_long_name Doctests.no_pow
           (Doctests.family "f" [Doctests.wants ["ab"%string] 1])
           Doctests.rival2 "ab" (1 # 2)).
  - simpl. lia.
  - vm_compute. reflexivity.
Defined.

(** * Each family gets its round-robin share *)

Section ShareFacts.

Import Agents Families Rwav Shares.

Variable pow_term : Z -> Z -> Q.

Lemma share_succ (k i t : nat) :
  (i < k)%nat ->
  share k i (S t) =
    (share k i t + (if decide (t mod k = i) then 1 else 0))%nat.
Proof.
  intros Hi. unfold share.
  assert (Hk : k <> 0%nat) by lia.
  pose proof (Nat.div_mod_eq t k) as Ht.
  pose proof (Nat.mod_upper_bound t k Hk) as Hr.
  set (q := (t / k)%nat) in *. set (r := (t mod k)%nat) in *.
  destruct (decide (r = i)) as [Hri|Hri].
  - assert ((t + k - 1 - i) / k = q)%nat as ->.
    { symmetry. apply (Nat.div_unique _ _ _ (k - 1)%nat); [lia|nia]. }
    symmetry. apply (Nat.div_unique _ _ _ 0%nat); [lia|nia].
  - destruct (decide (i < r)%nat).
    + assert ((t + k - 1 - i) / k = S q)%nat as ->.
      { symmetry. apply (Nat.div_unique _ _ _ (r - 1 - i)%nat); [lia|nia]. }
      symmetry. apply (Nat.div_unique _ _ _ (r - i)%nat); [lia|nia].
    + assert ((t + k - 1 - i) / k = q)%nat as ->.
      { symmetry. apply (Nat.div_unique _ _ _ (r + k - 1 - i)%nat); [lia|nia]. }
      symmetry. apply (Nat.div_unique _ _ _ (r + k - i)%nat); [lia|nia].
Qed.

Lemma share_zero (k i : nat) : (i < k)%nat -> share k i 0 = 0%nat.
Proof. intros Hi. unfold share. apply Nat.div_small. lia. Qed.

Lemma initial_on_schedule (families : list Family) (goods : gset string) :
  families <> [] -> on_schedule families (initial families goods).
Proof.
  intros Hne. split; simpl.
  - symmetry. apply Nat.Div0.mod_0_l.
  - intros i b Hb. rewrite list_lookup_fmap in Hb.
    destruct (families !! i) eqn:Hi; [|done]. injection Hb as <-.
    rewrite size_empty. symmetry. apply share_zero.
    by eapply lookup_lt_Some.
Qed.

Lemma turn_on_schedule (families : list Family) (goods : gset string)
    (st st' : state) :
  invariant families goods st ->
  on_schedule families st ->
  turn pow_term families st = Ok st' ->
  on_schedule families st'.
Proof.
  intros [Hlen Hidx Hdis Hrem Hun Hturns] [Hptr Hsizes] H.
  apply turn_spec in H
    as (g & current & Hcur & Hg & Hrem' & Hb' & Hidx' & Hturn').
  assert (Hk : length families <> 0%nat) by lia.
  assert (Hfresh : g ∉ current).
  { intros Hgc. apply (Hrem g); [|done].
    apply elem_of_union_list. exists current. split; [|done].
    by eapply list_elem_of_lookup_2. }
  split.
  - rewrite Hidx', Hturn', Hptr.
    rewrite Nat.Div0.add_mod_idemp_l. f_equal. lia.
  - intros i b Hb. rewrite Hb' in Hb. rewrite Hturn'.
    assert (Hi : (i < length families)%nat).
    { apply lookup_lt_Some in Hb. rewrite length_insert in Hb. lia. }
    rewrite share_succ by done. rewrite <- Hptr.
    destruct (decide (family_index st = i)) as [<-|Hne].
    + rewrite list_lookup_insert_eq in Hb by (by eapply lookup_lt_Some).
      injection Hb as <-.
      rewrite size_union by (intros x Hx ->%elem_of_singleton; done).
      rewrite size_singleton, (Hsizes _ _ Hcur). done.
    + rewrite list_lookup_insert_ne in Hb by done.
      rewrite (Hsizes _ _ Hb). lia.
Qed.

Lemma run_on_schedule (families : list Family) (goods : gset string)
    (fuel : nat) :
  forall st st' : state,
    invariant families goods st ->
    on_schedule families st ->
    run pow_term fuel families st = Ok st' ->
    on_schedule families st'.
Proof.
  induction fuel as [|fuel IH]; intros st st' Hinv Hsch; simpl.
  - destruct (decide _); [|discriminate]. by intros [= <-].
  - destruct (decide _); [by intros [= <-]|].
    destruct (turn pow_term families st) as [st1|e] eqn:Hturn; [|discriminate].
    simpl. apply IH.
    + by eapply turn_invariant.
    + by eapply turn_on_schedule.
Qed.

End ShareFacts.

(** Whenever [allocate] returns, family i (counting from 0) of k families
    holds exactly the goods of its turns: ceil((n - i) / k) goods when n
    goods are given out, that is (n + k - 1 - i) div k. *)
Theorem allocate_round_robin_shares (pow_term : Z -> Z -> Q)
    (families : list Families.Family) (goods : gset string)
    (st : Rwav.state) (i : nat) (b : gset string) :
  families <> [] ->
  Rwav.allocate_run pow_term families goods = Ok st ->
  Rwav.bundles st !! i = Some b ->
  size b = ((size goods + length families - 1 - i) / length families)%nat.
Proof.
  intros Hne Hrun Hb.
  pose proof (initial_invariant families goods Hne) as Hinv.
  pose proof (initial_on_schedule families goods Hne) as Hsch.
  destruct (run_on_schedule pow_term _ _ _ _ _ Hinv Hsch Hrun) as [_ Hsizes].
  destruct (run_invariant pow_term _ _ _ _ _ Hinv Hrun)
    as [[_ _ _ _ _ Hturns] Hempty].
  rewrite Hempty, size_empty in Hturns.
  rewrite (Hsizes i b Hb). unfold Shares.share. f_equal. lia.
Qed.

Lemma allocate_round_robin_shares_witness :
  exists (st : Rwav.state) (b : gset string),
    Rwav.allocate_run Doctests.no_pow
      [Doctests.rwav_family1; Doctests.rwav_family2] Doctests.wxyz = Ok st
    /\ Rwav.bundles st !! 0%nat = Some b
    /\ size b = ((size Doctests.wxyz + 2 - 1 - 0) / 2)%nat.
Proof.
  pose proof (initial_invariant
                [Doctests.rwav_family1; Doctests.rwav_family2]
                Doctests.wxyz ltac:(discriminate)) as Hinv.
  destruct (run_two_returns Doctests.no_pow
              [Doctests.rwav_family1; Doctests.rwav_family2] Doctests.wxyz
              (size Doctests.wxyz) eq_refl _ Hinv ltac:(reflexivity))
    as [st Hst].
  destruct (run_invariant Doctests.no_pow _ _ _ _ _ Hinv Hst)
    as [[Hlen _ _ _ _ _] _].
  destruct (Rwav.bundles st) as [|b bs] eqn:Hb; [discriminate|].
  exists st, b. split; [exact Hst|]. split; [by rewrite Hb|].
  apply (allocate_round_robin_shares Doctests.no_pow
           [Doctests.rwav_family1; Doctests.rwav_family2] Doctests.wxyz
           st 0 b).
  - discriminate.
  - exact Hst.
  - by rewrite Hb.
Defined.

(** * The two-thirds protocol stops at a stable allocation *)

Section TwoThirdsStable.

Import Agents Families MonotoneFamilies.

Variables (family0 family1 : Family).

(** A step that leaves [change] unset has moved nothing. *)
Lemma move_to_1_unchanged (st st' : search) (g : string) :
  move_to_1 family0 family1 st g = Ok st' ->
  (change st = true -> change st' = true)
  /\ (change st' = false ->
      st' = st
      /\ num_of_members_where (poor g (bundle1 st) 0) family1
         <= num_of_members_where (poor g (bundle0 st) 1) family0).
Proof.
  unfold move_to_1.
  destruct (Z.gtb_spec (num_of_members_where (poor g (bundle1 st) 0) family1)
              (num_of_members_where (poor g (bundle0 st) 1) family0)).
  - destruct (decide (g ∈ bundle0 st)); [|discriminate].
    intros [= <-]. simpl. split; [done|discriminate].
  - intros [= <-]. split; [done|]. intros _. split; [done|lia].
Qed.

Lemma move_to_0_unchanged (st st' : search) (g : string) :
  move_to_0 family0 family1 st g = Ok st' ->
  (change st = true -> change st' = true)
  /\ (change st' = false ->
      st' = st
      /\ num_of_members_where (poor g (bundle0 st) 0) family0
         <= num_of_members_where (poor g (bundle1 st) 1) family1).
Proof.
  unfold move_to_0.
  destruct (Z.gtb_spec (num_of_members_where (poor g (bundle0 st) 0) family0)
              (num_of_members_where (poor g (bundle1 st) 1) family1)).
  - destruct (decide (g ∈ bundle1 st)); [|discriminate].
    intros [= <-]. simpl. split; [done|discriminate].
  - intros [= <-]. split; [done|]. intros _. split; [done|lia].
Qed.

(** A pass that ends with [change] unset has run every body on the state
    it started from, and none of them moved a good. *)
Lemma for_each_unchanged (body : search -> string -> result search)
    (stable : search -> string -> Prop) :
  (forall st st' g,
      body st g = Ok st' ->
      (change st = true -> change st' = true)
      /\ (change st' = false -> st' = st /\ stable st g)) ->
  forall (l : list string) (st st' : search),
    for_each body st l = Ok st' ->
    (change st = true -> change st' = true)
    /\ (change st' = false -> st' = st /\ forall g, g ∈ l -> stable st g).
Proof.
  intros Hbody l. induction l as [|g l IH]; intros st st'; simpl.
  - intros [= <-]. split; [done|]. intros _. split; [done|].
    intros g Hg. by apply elem_of_nil in Hg.
  - destruct (body st g) as [st1|e] eqn:H1; [|discriminate]. simpl.
    intros Hrest.
    destruct (Hbody _ _ _ H1) as [Hkeep1 Hstable1].
    destruct (IH _ _ Hrest) as [Hkeep Hstable].
    split; [by auto|]. intros Hfalse.
    destruct (Hstable Hfalse) as [-> Hall].
    destruct (Hstable1 Hfalse) as [-> Hg].
    split; [done|]. intros x [->|Hx]%elem_of_cons; [done|by apply Hall].
Qed.

End TwoThirdsStable.

(** When an iteration of the two-thirds protocol ends without change (the
    case in which the loop stops early), it has moved no good, and the
    allocation is stable: for no good of bundle 1 do the members of family
    2 who want it and hold nothing outnumber the members of family 1 who
    want it and hold exactly one wanted good, and likewise the other way
    round. *)
Theorem twothirds_stops_stable (family0 family1 : Families.Family)
    (st st' : MonotoneFamilies.search) :
  MonotoneFamilies.iteration family0 family1 st = Ok st' ->
  MonotoneFamilies.change st' = false ->
  MonotoneFamilies.bundle0 st' = MonotoneFamilies.bundle0 st
  /\ MonotoneFamilies.bundle1 st' = MonotoneFamilies.bundle1 st
  /\ (forall g, g ∈ MonotoneFamilies.bundle0 st' ->
        Families.num_of_members_where
          (MonotoneFamilies.poor g (MonotoneFamilies.bundle1 st') 0) family1
        <= Families.num_of_members_where
             (MonotoneFamilies.poor g (MonotoneFamilies.bundle0 st') 1)
             family0)
  /\ (forall g, g ∈ MonotoneFamilies.bundle1 st' ->
        Families.num_of_members_where
          (MonotoneFamilies.poor g (MonotoneFamilies.bundle0 st') 0) family0
        <= Families.num_of_members_where
             (MonotoneFamilies.poor g (MonotoneFamilies.bundle1 st') 1)
             family1).
Proof.
  unfold MonotoneFamilies.iteration.
  set (st0 := {| MonotoneFamilies.bundle0 := MonotoneFamilies.bundle0 st;
                 MonotoneFamilies.bundle1 := MonotoneFamilies.bundle1 st;
                 MonotoneFamilies.change := false |}).
  destruct (MonotoneFamilies.for_each
              (MonotoneFamilies.move_to_1 family0 family1) st0 _)
    as [st1|e] eqn:H1; [|discriminate].
  simpl. intros H2 Hfalse.
  destruct (for_each_unchanged _ _ (move_to_0_unchanged family0 family1)
              _ _ _ H2) as [Hkeep2 Hstable2].
  destruct (Hstable2 Hfalse) as [-> Hall2].
  destruct (for_each_unchanged _ _ (move_to_1_unchanged family0 family1)
              _ _ _ H1) as [_ Hstable1].
  destruct (Hstable1 Hfalse) as [-> Hall1].
  simpl. split; [done|]. split; [done|]. split.
  - intros g Hg. apply (Hall1 g). by apply elem_of_elements.
  - intros g Hg. apply (Hall2 g). by apply elem_of_elements.
Qed.

Lemma twothirds_stops_stable_witness :
  exists st' : MonotoneFamilies.search,
    MonotoneFamilies.iteration MoreDoctests.twothirds_family
      MoreDoctests.twothirds_family MoreDoctests.one_each = Ok st'
    /\ MonotoneFamilies.bundle0 st'
       = MonotoneFamilies.bundle0 MoreDoctests.one_each
    /\ MonotoneFamilies.bundle1 st'
       = MonotoneFamilies.bundle1 MoreDoctests.one_each.
Proof.
  destruct (MonotoneFamilies.iteration MoreDoctests.twothirds_family
              MoreDoctests.twothirds_family MoreDoctests.one_each)
    as [st'|e] eqn:Hit; [|vm_compute in Hit; discriminate].
  exists st'. split; [done|].
  assert (Hfalse : MonotoneFamilies.change st' = false).
  { apply (f_equal (fun r => match r with
                             | Ok s => MonotoneFamilies.change s
                             | Raise _ => true
                             end)) in Hit.
    simpl in Hit. rewrite <- Hit. vm_compute. reflexivity. }
  destruct (twothirds_stops_stable MoreDoctests.twothirds_family
              MoreDoctests.twothirds_family MoreDoctests.one_each st'
              Hit Hfalse) as (H0 & H1 & _).
  by split.
Defined.

(** * The total value of a constructed agent *)

Section TotalValue.

Import Agents.


End TotalValue.


(** * No partition is yielded twice *)

Section PartitionsNoDup.

Import Partitions.

Context {A : Type}.

Implicit Types (first : A) (p smaller : list (list A)).

(** A list of parts of which exactly one holds [first] splits in one way
    around that part. *)
Lemma split_at_first first (l1 : list (list A)) :
  forall (l1' : list (list A)) (x x' : list A) (l2 l2' : list (list A)),
    first ∉ concat l1 -> first ∉ concat l1' ->
    l1 ++ [first :: x] ++ l2 = l1' ++ [first :: x'] ++ l2' ->
    l1 = l1' /\ x = x' /\ l2 = l2'.
Proof.
  induction l1 as [|a l1 IH]; intros [|a' l1'] x x' l2 l2' H1 H1' Heq;
    simpl in *.
  - by simplify_eq.
  - simplify_eq. exfalso. apply H1'. apply elem_of_app. left. by left.
  - simplify_eq. exfalso. apply H1. apply elem_of_app. left. by left.
  - injection Heq as -> Heq.
    destruct (IH l1' x x' l2 l2') as (-> & -> & ->); [| |done|done].
    + intros Hin. apply H1. apply elem_of_app. by right.
    + intros Hin. apply H1'. apply elem_of_app. by right.
Qed.

(** Every yield of [extend], split around the part that holds [first]. *)
Lemma extend_split first smaller p :
  p ∈ extend always first smaller ->
  exists (l1 : list (list A)) (x : list A) (l2 : list (list A)),
    p = l1 ++ [first :: x] ++ l2
    /\ ((x = [] /\ l1 = [] /\ l2 = smaller)
        \/ (x ∈ smaller /\ smaller = l1 ++ [x] ++ l2)).
Proof.
  intros [(n & subset & Hn & ->)| ->]%elem_of_extend.
  - exists (take n smaller), subset, (drop (S n) smaller).
    split; [done|]. right.
    pose proof (take_drop_middle smaller n subset Hn) as Hmid.
    split; [by eapply list_elem_of_lookup_2|done].
  - exists [], [], smaller. split; [done|]. by left.
Qed.

Lemma not_elem_of_concat_sub first (l1 l2 : list (list A)) (x : list A) :
  first ∉ concat (l1 ++ [x] ++ l2) -> first ∉ concat l1.
Proof.
  intros H Hin. apply H. rewrite concat_app. apply elem_of_app. by left.
Qed.

(** From a yield of [extend] the partition it extends can be read back. *)
Lemma extend_injective first smaller1 smaller2 p :
  first ∉ concat smaller1 -> first ∉ concat smaller2 ->
  Forall (fun part => part <> []) smaller1 ->
  Forall (fun part => part <> []) smaller2 ->
  p ∈ extend always first smaller1 ->
  p ∈ extend always first smaller2 ->
  smaller1 = smaller2.
Proof.
  intros Hf1 Hf2 Hne1 Hne2 Hp1 Hp2.
  apply extend_split in Hp1 as (l1 & x & l2 & -> & Hcase1).
  apply extend_split in Hp2 as (l1' & x' & l2' & Heq & Hcase2).
  assert (Hl1 : first ∉ concat l1).
  { destruct Hcase1 as [(_ & -> & _)|(_ & ->)]; [by intros ?%elem_of_nil|].
    by eapply not_elem_of_concat_sub. }
  assert (Hl1' : first ∉ concat l1').
  { destruct Hcase2 as [(_ & -> & _)|(_ & ->)]; [by intros ?%elem_of_nil|].
    by eapply not_elem_of_concat_sub. }
  destruct (split_at_first first l1 l1' x x' l2 l2' Hl1 Hl1' Heq)
    as (<- & <- & <-).
  destruct Hcase1 as [(-> & -> & ->)|(Hx1 & ->)],
      Hcase2 as [(Hx & Hl & ->)|(Hx2 & ->)]; try done.
  - rewrite Forall_forall in Hne2. by destruct (Hne2 [] Hx2).
  - subst x. rewrite Forall_forall in Hne1. by destruct (Hne1 [] Hx1).
Qed.

Lemma extend_NoDup first smaller :
  first ∉ concat smaller ->
  Forall (fun part => part <> []) smaller ->
  NoDup (extend always first smaller).
Proof.
  intros Hf Hne. unfold extend, always. apply NoDup_app. split; [|split].
  - apply NoDup_alt. intros i j p Hi Hj.
    apply list_lookup_imap_Some in Hi as (x & Hx & ->).
    apply list_lookup_imap_Some in Hj as (y & Hy & Heq).
    unfold insert_first in Heq.
    apply split_at_first in Heq as (Htake & _ & _).
    + apply (f_equal length) in Htake.
      rewrite !length_take in Htake.
      apply lookup_lt_Some in Hx, Hy. lia.
    + intros Hin. apply Hf.
      rewrite <- (take_drop i smaller), concat_app. apply elem_of_app.
      by left.
    + intros Hin. apply Hf.
      rewrite <- (take_drop j smaller), concat_app. apply elem_of_app.
      by left.
  - intros p (n & x & -> & Hx)%elem_of_lookup_imap Hin.
    apply list_elem_of_singleton in Hin.
    change ([first] :: smaller) with ([] ++ [first :: []] ++ smaller) in Hin.
    unfold insert_first in Hin.
    apply split_at_first in Hin as (_ & -> & _).
    + rewrite Forall_forall in Hne.
      by destruct (Hne [] (list_elem_of_lookup_2 _ _ _ Hx)).
    + intros Hin'. apply Hf.
      rewrite <- (take_drop n smaller), concat_app. apply elem_of_app.
      by left.
    + by intros ?%elem_of_nil.
  - apply NoDup_singleton.
Qed.

Lemma partitions_NoDup_aux (l : list A) :
  forall ps, NoDup l -> partitions l = Ok ps -> NoDup ps.
Proof.
  induction l as [|first rest IH]; intros ps Hnd H; [discriminate|].
  destruct rest as [|x rest].
  - injection H as <-. apply NoDup_singleton.
  - apply NoDup_cons in Hnd as [Hfirst Hnd].
    apply partitions_cons in H as (smallers & Hs & ->).
    assert (Hfresh : forall smaller, smaller ∈ smallers ->
              first ∉ concat smaller
              /\ Forall (fun part => part <> []) smaller).
    { intros smaller Hsm. split.
      - by rewrite (partitions_concat _ _ _ Hs Hsm).
      - by apply (parts_nonempty _ _ _ Hs Hsm). }
    apply NoDup_bind.
    + intros s1 s2 p Hs1 Hs2 Hp1 Hp2.
      destruct (Hfresh s1 Hs1), (Hfresh s2 Hs2).
      by eapply extend_injective.
    + intros s Hsm. destruct (Hfresh s Hsm). by apply extend_NoDup.
    + by apply IH.
Qed.

End PartitionsNoDup.

(** For a collection without repeated elements, [partitions] yields no
    partition twice. *)
Theorem partitions_NoDup {A : Type} (collection : list A)
    (ps : list (list (list A))) :
  NoDup collection ->
  Partitions.partitions collection = Ok ps ->
  NoDup ps.
Proof. apply partitions_NoDup_aux. Qed.

Lemma partitions_NoDup_witness :
  NoDup [[[1; 2; 3]]; [[1]; [2; 3]]; [[1; 2]; [3]]; [[2]; [1; 3]];
         [[1]; [2]; [3]]].
Proof.
  apply (partitions_NoDup [1; 2; 3]).
  - repeat (apply NoDup_cons; split; [set_solver|]). apply NoDup_nil_2.
  - reflexivity.
Defined.

(** * The votes of a family *)

Section VoteFacts.

Import Agents Families Rwav.

Variable pow_term : Z -> Z -> Q.

Lemma total_weight_add (w : Q) (m : gmap string Q) (x g : string) :
  total_weight (add_weight w m x) g =
    if decide (g = x) then (total_weight m x + w)%Q else total_weight m g.
Proof.
  unfold add_weight, total_weight at 1.
  destruct (decide (g = x)) as [->|Hne].
  - by rewrite lookup_insert_eq.
  - by rewrite lookup_insert_ne.
Qed.

Lemma total_weight_foldl (w : Q) (l : list string) :
  forall (m : gmap string Q) (g : string),
    NoDup l ->
    (total_weight (foldl (add_weight w) m l) g ==
       total_weight m g + (if decide (g ∈ l) then w else 0))%Q.
Proof.
  induction l as [|x l IH]; intros m g Hnd; simpl.
  - destruct (decide (g ∈ [])) as [H|_]; [by apply elem_of_nil in H|lra].
  - apply NoDup_cons in Hnd as [Hx Hnd].
    rewrite (IH _ g Hnd), total_weight_add.
    destruct (decide (g = x)) as [Heq|Hne],
        (decide (g ∈ l)) as [Hg|Hg],
        (decide (g ∈ x :: l)) as [Hg'|Hg'];
      try subst g; try lra; try done; exfalso.
    + apply Hg'. by left.
    + apply Hg'. by right.
    + by apply elem_of_cons in Hg' as [?|?].
Qed.

(** One member adds its weight, once per represented agent, to each good
    it wants and to no other good. *)
Lemma vote_total_weight (owned remaining : gset string) (k : Z)
    (m m' : gmap string Q) (member : BinaryAgent * Z) :
  vote pow_term owned remaining k m member = Ok m' ->
  exists w : Q,
    member_weight pow_term member.1 member.2 owned remaining k = Ok w
    /\ forall g,
         (total_weight m' g ==
            total_weight m g
            + (if decide (g ∈ desired_goods member.1)
               then w * inject_Z (cardinality member.1) else 0))%Q.
Proof.
  unfold vote.
  destruct (member_weight _ _ _ _ _ _) as [w|e]; [|discriminate]. simpl.
  intros [= <-]. exists w. split; [done|]. intros g.
  rewrite total_weight_foldl by apply NoDup_elements.
  destruct (decide (g ∈ elements (desired_goods member.1))) as [Hg|Hg],
      (decide (g ∈ desired_goods member.1)) as [Hg'|Hg'];
    try reflexivity; exfalso; rewrite elem_of_elements in Hg; done.
Qed.

Lemma weight_two_range (r s : Z) (w : Q) :
  weight pow_term r s 2 = Ok w -> (0 <= w <= 1)%Q.
Proof.
  rewrite rwav_weight_two. intros [= <-].
  destruct (balance_monotone r s) as [Hr _].
  pose proof (balance_range r s) as [H0 H1].
  pose proof (balance_range (r - 1) s) as [H0' H1'].
  unfold MonotoneFamilies.weight. split; lra.
Qed.

Lemma votes_unwanted (owned remaining : gset string) (k : Z) (g : string)
    (members : list (BinaryAgent * Z)) :
  forall m m' : gmap string Q,
    (forall member, member ∈ members -> g ∉ desired_goods member.1) ->
    votes pow_term owned remaining k m members = Ok m' ->
    (total_weight m' g == total_weight m g)%Q.
Proof.
  induction members as [|member members IH]; intros m m' Hun; simpl.
  - intros [= <-]. reflexivity.
  - destruct (vote _ _ _ _ _ _) as [m1|e] eqn:Hv; [|discriminate]. simpl.
    intros Hrest.
    apply vote_total_weight in Hv as (w & _ & Hw).
    eapply Qeq_trans;
      [apply (IH m1 m'); [|done]; intros; apply Hun; by right|].
    eapply Qeq_trans; [apply Hw|].
    destruct (decide (g ∈ desired_goods member.1)) as [Hg|_]; [|lra].
    exfalso. revert Hg. apply Hun. by left.
Qed.

Lemma votes_nonneg (owned remaining : gset string) (g : string)
    (members : list (BinaryAgent * Z)) :
  forall m m' : gmap string Q,
    (forall member, member ∈ members -> 0 <= cardinality member.1) ->
    votes pow_term owned remaining 2 m members = Ok m' ->
    (total_weight m g <= total_weight m' g)%Q.
Proof.
  induction members as [|member members IH]; intros m m' Hcard; simpl.
  - intros [= <-]. apply Qle_refl.
  - destruct (vote _ _ _ _ _ _) as [m1|e] eqn:Hv; [|discriminate]. simpl.
    intros Hrest.
    apply vote_total_weight in Hv as (w & Hmw & Hw).
    apply weight_two_range in Hmw as [Hw0 _].
    eapply Qle_trans;
      [|apply (IH m1 m'); [|done]; intros; apply Hcard; by right].
    eapply Qle_trans; [|apply Qle_lteq; right; apply Qeq_sym, Hw].
    destruct (decide _); [|lra].
    assert (0 <= inject_Z (cardinality member.1))%Q.
    { change 0%Q with (inject_Z 0). rewrite <- Zle_Qle. apply Hcard. by left. }
    assert (0 <= w * inject_Z (cardinality member.1))%Q
      by (by apply Qmult_le_0_compat).
    lra.
Qed.

End VoteFacts.

(** A good that no member of the family wants gets total weight 0; and
    with two families and no negative cardinality, no good gets a negative
    total weight. *)
Theorem votes_total_weights (pow_term : Z -> Z -> Q)
    (family : list (Agents.BinaryAgent * Z))
    (owned_goods remaining_goods : gset string) (num_of_families : Z)
    (weights : gmap string Q) :
  Rwav.votes pow_term owned_goods remaining_goods num_of_families ∅ family
    = Ok weights ->
  (forall g,
      (forall member, member ∈ family -> g ∉ Agents.desired_goods member.1) ->
      (Rwav.total_weight weights g == 0)%Q)
  /\ (num_of_families = 2 ->
      (forall member, member ∈ family -> 0 <= Agents.cardinality member.1) ->
      forall g, (0 <= Rwav.total_weight weights g)%Q).
Proof.
  intros Hvotes. split.
  - intros g Hun.
    apply (votes_unwanted pow_term _ _ _ g _ _ _ Hun Hvotes).
  - intros -> Hcard g.
    apply (votes_nonneg pow_term _ _ g _ _ _ Hcard Hvotes).
Qed.

Lemma votes_total_weights_witness :
  (Rwav.total_weight MoreDoctests.choosers_weights "v" == 0)%Q.
Proof.
  apply (votes_total_weights Doctests.no_pow MoreDoctests.choosers ∅
           MoreDoctests.xyz 2 MoreDoctests.choosers_weights).
  - vm_compute. reflexivity.
  - intros member Hin Hv. unfold MoreDoctests.choosers in Hin.
    apply elem_of_cons in Hin as [->|Hin];
      [|apply list_elem_of_singleton in Hin as ->];
      apply elem_of_elements in Hv; vm_compute in Hv;
      apply list_elem_of_In in Hv; simpl in Hv;
      intuition discriminate.
Defined.

(** * The line protocol on two families is RWAV *)

Section LineFacts.

Import Agents Families.

Variable pow_term : Z -> Z -> Q.

Lemma key_lt_total (k1 k2 : Q * string) :
  Rwav.key_lt k1 k2 = false -> Rwav.key_lt k2 k1 = false -> k1.2 = k2.2.
Proof.
  intros H12 H21.
  destruct (Qcompare_spec k1.1 k2.1) as [Heq|Hlt|Hgt].
  - destruct (String.compare k1.2 k2.2) eqn:Hc.
    + by apply String.compare_eq_iff.
    + assert (Rwav.key_lt k1 k2 = true) by (apply key_lt_spec; auto).
      congruence.
    + assert (Rwav.key_lt k2 k1 = true).
      { apply key_lt_spec. right. split; [by symmetry|].
        by rewrite String.compare_antisym, Hc. }
      congruence.
  - assert (Rwav.key_lt k1 k2 = true) by (apply key_lt_spec; auto).
    congruence.
  - assert (Rwav.key_lt k2 k1 = true) by (apply key_lt_spec; auto).
    congruence.
Qed.

(** [min] over the keys [(f(good), good)] does not depend on the order in
    which the goods are visited. *)
Lemma min_by_perm (f : string -> Q) (l1 l2 : list string) :
  l1 ≡ₚ l2 ->
  Rwav.min_by (fun good => (f good, good)) l1
  = Rwav.min_by (fun good => (f good, good)) l2.
Proof.
  intros Hperm.
  destruct (Rwav.min_by _ l1) as [x1|e1] eqn:H1.
  - destruct (Rwav.min_by (fun good => (f good, good)) l2) as [x2|e2] eqn:H2.
    + f_equal.
      pose proof (min_by_elem_of _ _ _ H1) as Hin1.
      pose proof (min_by_elem_of _ _ _ H2) as Hin2.
      rewrite Hperm in Hin1. rewrite <- Hperm in Hin2.
      pose proof (min_by_least _ _ _ H1 x2 Hin2) as Hle1.
      pose proof (min_by_least _ _ _ H2 x1 Hin1) as Hle2.
      exact (key_lt_total (f x1, x1) (f x2, x2) Hle2 Hle1).
    + destruct l2 as [|y l2]; [|discriminate].
      apply Permutation_nil_r in Hperm as ->. discriminate.
  - destruct l1 as [|y l1]; [|discriminate].
    apply Permutation_nil_l in Hperm as <-. done.
Qed.

Lemma votes_line (owned : gset string) (l : list string)
    (family : list (BinaryAgent * Z)) :
  forall m : gmap string Q,
    Rwav.votes pow_term owned (list_to_set l) 2 m family
    = Ok (foldl (LineProtocol.vote owned l) m family).
Proof.
  induction family as [|member family IH]; intros m; simpl; [done|].
  unfold Rwav.vote, Rwav.member_weight. rewrite rwav_weight_two. simpl.
  apply IH.
Qed.

Lemma choose_good_line (family : list (BinaryAgent * Z))
    (owned : gset string) (l : list string) :
  NoDup l ->
  Rwav.choose_good pow_term family owned (list_to_set l) 2
  = LineProtocol.choose_good family owned l.
Proof.
  intros Hnd. unfold Rwav.choose_good, LineProtocol.choose_good.
  rewrite votes_line. simpl.
  apply min_by_perm. by apply elements_list_to_set.
Qed.

Lemma remove_NoDup (g : string) (l : list string) :
  NoDup l -> g ∈ l ->
  exists l', LineProtocol.remove g l = Ok l'
             /\ NoDup l'
             /\ (list_to_set l' : gset string) = list_to_set l ∖ {[g]}.
Proof.
  induction l as [|x l IH]; intros Hnd Hg; [by apply elem_of_nil in Hg|].
  apply NoDup_cons in Hnd as [Hx Hnd]. simpl.
  destruct (decide (x = g)) as [->|Hne].
  - exists l. split; [done|]. split; [done|].
    apply set_eq. intros y.
    rewrite elem_of_difference, elem_of_union, elem_of_singleton,
      !elem_of_list_to_set.
    split; [|tauto]. intros Hy. split; [by right|]. by intros ->.
  - apply elem_of_cons in Hg as [->|Hg]; [done|].
    destruct (IH Hnd Hg) as (l' & -> & Hnd' & Hset). simpl.
    exists (x :: l'). split; [done|].
    assert (Hxl' : x ∉ l').
    { intros Hin. apply (elem_of_list_to_set (C:=gset string)) in Hin.
      rewrite Hset, elem_of_difference, elem_of_list_to_set in Hin. tauto. }
    split; [by apply NoDup_cons|].
    simpl. rewrite Hset. apply set_eq. intros y.
    rewrite !elem_of_union, !elem_of_difference, elem_of_union,
      !elem_of_singleton.
    split; [|tauto]. intros [->|?]; [|tauto]. split; [by left|done].
Qed.

Lemma turn_line (family0 family1 : Family) (st : LineProtocol.state) :
  NoDup (LineProtocol.remaining_goods st) ->
  Rwav.turn pow_term [family0; family1] (LineProtocol.as_rwav_state st)
  = LineProtocol.as_rwav_state
      <$> LineProtocol.turn
            [Rwav.with_targets family0; Rwav.with_targets family1] st
  /\ forall st',
       LineProtocol.turn
         [Rwav.with_targets family0; Rwav.with_targets family1] st = Ok st' ->
       NoDup (LineProtocol.remaining_goods st').
Proof.
  intros Hnd. unfold Rwav.turn, LineProtocol.turn. simpl.
  destruct (LineProtocol.family_index st) as [|[|i]] eqn:Hi; simpl;
    [| |by split].
  all: destruct (LineProtocol.bundles st !! _) as [current|]; [|by split].
  all: change (Z.of_nat 2) with 2; rewrite choose_good_line by done.
  all: destruct (LineProtocol.choose_good _ _ _) as [g|e] eqn:Hg;
    [|by split].
  all: simpl.
  all: assert (Hin : g ∈ LineProtocol.remaining_goods st)
    by (by eapply min_by_elem_of).
  all: destruct (remove_NoDup g _ Hnd Hin) as (l' & -> & Hnd' & Hset).
  all: rewrite decide_True by (by apply elem_of_list_to_set).
  all: simpl; split;
    [unfold LineProtocol.as_rwav_state; simpl; by rewrite ?Hset, ?Hi
    |by intros st' [= <-]].
Qed.

Lemma size_list_to_set_zero (l : list string) :
  size (list_to_set l : gset string) = 0%nat <-> l = [].
Proof.
  split; [|by intros ->].
  intros Hz. destruct l as [|x l]; [done|].
  apply size_empty_iff in Hz.
  assert (x ∈ (list_to_set (x :: l) : gset string)) as Hx
    by (apply elem_of_list_to_set; by left).
  rewrite (leibniz_equiv _ _ Hz) in Hx. by apply elem_of_empty in Hx.
Qed.

Lemma run_line (family0 family1 : Family) (fuel : nat) :
  forall st : LineProtocol.state,
    NoDup (LineProtocol.remaining_goods st) ->
    Rwav.run pow_term fuel [family0; family1]
      (LineProtocol.as_rwav_state st)
    = LineProtocol.as_rwav_state
        <$> LineProtocol.run fuel
              [Rwav.with_targets family0; Rwav.with_targets family1] st.
Proof.
  induction fuel as [|fuel IH]; intros st Hnd.
  - simpl.
    destruct (decide (size (list_to_set (LineProtocol.remaining_goods st)) = 0)%nat)
      as [Hz|Hnz].
    + apply size_list_to_set_zero in Hz. by rewrite Hz.
    + destruct (LineProtocol.remaining_goods st) as [|x l]; [|done].
      by destruct Hnz.
  - simpl.
    destruct (decide (size (list_to_set (LineProtocol.remaining_goods st)) = 0)%nat)
      as [Hz|Hnz].
    + apply size_list_to_set_zero in Hz. by rewrite Hz.
    + destruct (turn_line family0 family1 st Hnd) as [Hturn Hkeep].
      rewrite Hturn.
      destruct (LineProtocol.remaining_goods st) as [|x l] eqn:Hl;
        [by destruct Hnz|].
      destruct (LineProtocol.turn _ st) as [st1|e]; [|done]. simpl.
      apply IH. by apply Hkeep.
Qed.

End LineFacts.

(** [choose_good] of monotone_families.py chooses the good that
    [choose_good] of rwav_protocol.py chooses for two families, in whatever
    order the remaining goods are listed. *)
Theorem choose_good_agrees (pow_term : Z -> Z -> Q)
    (family : list (Agents.BinaryAgent * Z)) (owned_goods : gset string)
    (remaining_goods : list string) :
  NoDup remaining_goods ->
  LineProtocol.choose_good family owned_goods remaining_goods
  = Rwav.choose_good pow_term family owned_goods
      (list_to_set remaining_goods) 2.
Proof. intros Hnd. symmetry. by apply choose_good_line. Qed.

Lemma choose_good_agrees_witness :
  LineProtocol.choose_good MoreDoctests.choosers ∅ ["z"; "y"; "x"]%string
  = Rwav.choose_good Doctests.no_pow MoreDoctests.choosers ∅
      (list_to_set ["z"; "y"; "x"]%string) 2.
Proof.
  apply (choose_good_agrees Doctests.no_pow MoreDoctests.choosers ∅
           ["z"; "y"; "x"]%string).
  repeat (apply NoDup_cons; split; [set_solver|]). apply NoDup_nil_2.
Defined.

(** On two families the line protocol returns exactly what RWAV returns
    for the same members and target values. *)
Theorem allocate_on_a_line_is_RWAV (pow_term : Z -> Z -> Q)
    (family0 family1 : Families.Family) (goods : gset string) :
  LineProtocol.allocate_on_a_line
    [Rwav.with_targets family0; Rwav.with_targets family1] goods
  = Rwav.allocate pow_term [family0; family1] goods.
Proof.
  unfold LineProtocol.allocate_on_a_line, Rwav.allocate, Rwav.allocate_run.
  simpl.
  pose proof (run_line pow_term family0 family1 (size goods)
                {| LineProtocol.turn_index := 0;
                   LineProtocol.family_index := 0;
                   LineProtocol.remaining_goods := elements goods;
                   LineProtocol.bundles := [∅; ∅] |}
                (NoDup_elements goods)) as Hrun.
  unfold LineProtocol.as_rwav_state at 1 in Hrun. simpl in Hrun.
  rewrite list_to_set_elements_L in Hrun.
  unfold Rwav.initial. simpl. rewrite Hrun.
  by destruct (LineProtocol.run _ _ _).
Qed.

(** * When [balance] returns *)

Section BalanceReturns.


End BalanceReturns.


(** * The overrides against the methods of the base class *)

Section BinaryOverride.

Import Agents.

Lemma combination_size (bundle : gset string) (c : nat) (sub : list string) :
  sub ∈ combinations (elements bundle) c ->
  size (list_to_set sub : gset string) = c
  /\ (list_to_set sub : gset string) ⊆ bundle.
Proof.
  intros [Hsub Hlen]%elem_of_combinations. split.
  - rewrite <- Hlen. apply size_list_to_set.
    exact (sublist_NoDup _ _ (NoDup_elements bundle) Hsub).
  - intros g Hg%elem_of_list_to_set. apply elem_of_elements.
    by eapply elem_of_sublist.
Qed.

(** Taking [c] goods away lowers a binary value by at most [c]. *)
Lemma binary_value_less (a : BinaryAgent) (bundle sub : gset string) :
  BinaryAgent_value a bundle - Z.of_nat (size sub)
  <= BinaryAgent_value a (bundle ∖ sub).
Proof.
  unfold BinaryAgent_value.
  assert (Hsub : desired_goods a ∩ bundle
                 ⊆ desired_goods a ∩ (bundle ∖ sub) ∪ sub).
  { intros g [Hd Hb]%elem_of_intersection.
    destruct (decide (g ∈ sub)) as [Hs|Hs].
    - apply elem_of_union. by right.
    - apply elem_of_union. left. apply elem_of_intersection.
      split; [done|]. by apply elem_of_difference. }
  apply subseteq_size in Hsub.
  pose proof (size_union_alt (desired_goods a ∩ (bundle ∖ sub)) sub) as Hun.
  assert (Hle : (size (sub ∖ (desired_goods a ∩ (bundle ∖ sub)))
                 <= size sub)%nat).
  { apply subseteq_size. intros g Hg. by apply elem_of_difference in Hg as [? _]. }
  lia.
Qed.

Lemma binary_values_except_c (a : BinaryAgent) (bundle : gset string)
    (c : Z) (vs : list Z) :
  BaseClass.values_except_c (fun b => Ok (BinaryAgent_value a b)) bundle c
    = Ok vs ->
  forall v, v ∈ vs -> BinaryAgent_value a bundle - c <= v /\ 0 <= v.
Proof.
  unfold BaseClass.values_except_c.
  destruct (Z.ltb_spec c 0); [discriminate|].
  intros Hvs%mapM_Ok v Hv.
  apply list_elem_of_lookup in Hv as [i Hi].
  destruct (Forall2_lookup_r _ _ _ _ _ Hvs Hi) as (sub & Hsub & [= <-]).
  apply list_elem_of_lookup_2, combination_size in Hsub as [Hsize _].
  split.
  - pose proof (binary_value_less a bundle (list_to_set sub)). lia.
  - unfold BinaryAgent_value. lia.
Qed.

End BinaryOverride.

(** The overrides of BinaryAgent return [value - c] for a bundle of more
    than c goods.  That is never above what the methods of the base class
    compute by trying every set of c goods, which is never negative; it is
    below it, and negative, when the bundle holds fewer than c wanted
    goods. *)
Theorem binary_overrides_below_base (a : Agents.BinaryAgent)
    (bundle : gset string) (c lo hi : Z) :
  BaseClass.value_except_best_c_goods
    (fun b => Ok (Agents.BinaryAgent_value a b)) bundle c = Ok lo ->
  BaseClass.value_except_worst_c_goods
    (fun b => Ok (Agents.BinaryAgent_value a b)) bundle c = Ok hi ->
  Agents.BinaryAgent_value_except_best_c_goods a bundle c <= lo
  /\ Agents.BinaryAgent_value_except_worst_c_goods a bundle c <= hi
  /\ 0 <= lo /\ 0 <= hi
  /\ (c < Z.of_nat (size bundle) -> Agents.BinaryAgent_value a bundle < c ->
      Agents.BinaryAgent_value_except_best_c_goods a bundle c < 0).
Proof.
  unfold BaseClass.value_except_best_c_goods,
    BaseClass.value_except_worst_c_goods,
    Agents.BinaryAgent_value_except_best_c_goods,
    Agents.BinaryAgent_value_except_worst_c_goods.
  destruct (Z.leb_spec (Z.of_nat (size bundle)) c).
  - intros [= <-] [= <-]. lia.
  - destruct (BaseClass.values_except_c _ bundle c) as [vs|e] eqn:Hvs;
      [|discriminate].
    simpl. intros [Hlo _]%min_Z_spec [Hhi _]%max_Z_spec.
    destruct (binary_values_except_c a bundle c vs Hvs lo Hlo).
    destruct (binary_values_except_c a bundle c vs Hvs hi Hhi).
    lia.
Qed.

Lemma binary_overrides_below_base_witness :
  let a := Agents.BinaryAgent_init {["x"%string]} 1 in
  let xyz : gset string := {["x"%string; "y"%string; "z"%string]} in
  Agents.BinaryAgent_value_except_best_c_goods a xyz 2 <= 0
  /\ Agents.BinaryAgent_value_except_worst_c_goods a xyz 2 <= 1
  /\ 0 <= 0 /\ 0 <= 1
  /\ (2 < Z.of_nat (size xyz) -> Agents.BinaryAgent_value a xyz < 2 ->
      Agents.BinaryAgent_value_except_best_c_goods a xyz 2 < 0).
Proof.
  intros a xyz.
  apply (binary_overrides_below_base a xyz 2 0 1).
  - vm_compute. reflexivity.
  - vm_compute. reflexivity.
Defined.

Section AdditiveOverride.

Import Agents.

Variable a : AdditiveAgent.

Lemma mapM_all_Ok {X Y : Type} (f : X -> result Y) (g : X -> Y)
    (l : list X) :
  (forall x, x ∈ l -> f x = Ok (g x)) -> mapM f l = Ok (g <$> l).
Proof.
  induction l as [|x l IH]; intros Hall; [done|].
  change (mapM f (x :: l)) with (y ← f x; k ← mapM f l; Ok (y :: k)).
  rewrite (Hall x) by (by left). simpl.
  rewrite IH by (intros y Hy; apply Hall; by right). done.
Qed.

Lemma good_value_known (g : string) :
  g ∈ dom (map_good_to_value a) -> good_value a g = Ok (good_value_or_0 a g).
Proof.
  intros [w Hw]%elem_of_dom. unfold good_value, good_value_or_0.
  by rewrite Hw.
Qed.

Lemma additive_value_list_known (l : list string) :
  (forall g, g ∈ l -> g ∈ dom (map_good_to_value a)) ->
  AdditiveAgent_value_list a l = Ok (sum_Z (good_value_or_0 a <$> l)).
Proof.
  intros Hl. unfold AdditiveAgent_value_list.
  rewrite (mapM_all_Ok _ (good_value_or_0 a)); [done|].
  intros g Hg. by apply good_value_known, Hl.
Qed.

Lemma additive_value_known (bundle : gset string) :
  bundle ⊆ dom (map_good_to_value a) ->
  AdditiveAgent_value a bundle = Ok (sum_Z (good_value_or_0 a <$> elements bundle)).
Proof.
  intros Hsub. apply additive_value_list_known.
  intros g Hg. by apply Hsub, elem_of_elements.
Qed.

Lemma additive_sorted_known (sign : Z) (bundle : gset string) :
  bundle ⊆ dom (map_good_to_value a) ->
  AdditiveAgent_sorted a sign bundle =
    Ok (fst <$> sorted snd ((fun g => (g, sign * good_value_or_0 a g)) <$> elements bundle)).
Proof.
  intros Hsub. unfold AdditiveAgent_sorted.
  rewrite (mapM_all_Ok _ (fun g => (g, sign * good_value_or_0 a g))); [done|].
  intros g Hg. rewrite good_value_known; [done|].
  by apply Hsub, elem_of_elements.
Qed.

Lemma sum_Z_scale (k : Z) (l : list string) :
  sum_Z ((fun g => k * good_value_or_0 a g) <$> l) = k * sum_Z (good_value_or_0 a <$> l).
Proof. induction l as [|g l IH]; csimpl; [lia|]. rewrite IH. lia. Qed.

Lemma min_Z_attained (l : list Z) (t : Z) :
  t ∈ l -> (forall x, x ∈ l -> t <= x) -> min_Z l = Ok t.
Proof.
  intros Ht Hall. destruct l as [|y l]; [by apply elem_of_nil in Ht|].
  destruct (min_Z_spec (y :: l) _ eq_refl) as [Hin Hle].
  unfold min_Z. f_equal.
  pose proof (Hle t Ht). pose proof (Hall _ Hin). lia.
Qed.

Lemma max_Z_attained (l : list Z) (t : Z) :
  t ∈ l -> (forall x, x ∈ l -> x <= t) -> max_Z l = Ok t.
Proof.
  intros Ht Hall. destruct l as [|y l]; [by apply elem_of_nil in Ht|].
  destruct (max_Z_spec (y :: l) _ eq_refl) as [Hin Hle].
  unfold max_Z. f_equal.
  pose proof (Hle t Ht). pose proof (Hall _ Hin). lia.
Qed.

(** No value of [bundle] less a [c]-subset is, times [sign], above the
    value of the bundle less its first [c] goods by [sign * value]. *)
Lemma combination_bound (sign : Z) (bundle : gset string) (c : nat)
    (D sub : list string) :
  D ≡ₚ elements bundle ->
  StronglySorted Z.le ((fun g => sign * good_value_or_0 a g) <$> D) ->
  sub ∈ combinations (elements bundle) c ->
  sign * sum_Z (good_value_or_0 a <$> elements (bundle ∖ list_to_set sub))
  <= sign * sum_Z (good_value_or_0 a <$> drop c D).
Proof.
  intros HD Hsorted Hsub.
  destruct (combination_size bundle c sub Hsub) as [Hsize Hin].
  rewrite <- !sum_Z_scale, fmap_drop.
  apply sum_Z_drop_sorted.
  - done.
  - apply fmap_submseteq. rewrite HD.
    apply elements_submseteq. intros g Hg.
    by apply elem_of_difference in Hg as [? _].
  - rewrite !length_fmap, (Permutation_length HD).
    change (length (elements ?X)) with (size X).
    rewrite size_difference by done. rewrite Hsize.
    assert (c <= size bundle)%nat; [|lia].
    rewrite <- Hsize. by apply subseteq_size.
Qed.

(** Some [c]-subset leaves exactly the goods after the first [c]. *)
Lemma combination_attained (bundle : gset string) (c : nat)
    (D : list string) :
  D ≡ₚ elements bundle ->
  (c <= size bundle)%nat ->
  exists sub,
    sub ∈ combinations (elements bundle) c
    /\ bundle ∖ list_to_set sub = list_to_set (drop c D)
    /\ sum_Z (good_value_or_0 a <$> elements (bundle ∖ list_to_set sub))
       = sum_Z (good_value_or_0 a <$> drop c D).
Proof.
  intros HD Hc.
  assert (HDnd : NoDup D) by (rewrite HD; apply NoDup_elements).
  assert (HDlen : length D = size bundle) by (by rewrite HD).
  rewrite <- (take_drop c D) in HDnd.
  apply NoDup_app in HDnd as (Htake & Hdis & Hdrop).
  set (sub := filter (fun g => g ∈ take c D) (elements bundle)).
  assert (Hset : (list_to_set sub : gset string) = list_to_set (take c D)).
  { apply set_eq. intros g. unfold sub.
    rewrite !elem_of_list_to_set, list_elem_of_filter.
    split; [tauto|]. intros Hg. split; [done|].
    rewrite <- HD, <- (take_drop c D). apply elem_of_app. by left. }
  assert (Hsubnd : NoDup sub).
  { apply (sublist_NoDup _ _ (NoDup_elements bundle)), sublist_filter. }
  exists sub. split.
  - apply elem_of_combinations. split; [apply sublist_filter|].
    rewrite <- (size_list_to_set (C:=gset string) sub) by done.
    rewrite Hset, size_list_to_set by done.
    rewrite length_take. lia.
  - assert (Hrest : bundle ∖ list_to_set (take c D)
                    = (list_to_set (drop c D) : gset string)).
    { apply set_eq. intros g.
      rewrite elem_of_difference, !elem_of_list_to_set.
      rewrite <- (elem_of_elements bundle), <- HD.
      rewrite <- (take_drop c D) at 1. rewrite elem_of_app.
      split.
      - intros [[?|?] ?]; [done|done].
      - intros Hg. split; [by right|]. intros Ht. by apply (Hdis g). }
    rewrite Hset, Hrest. split; [done|].
    apply sum_Z_perm, fmap_Permutation. by apply elements_list_to_set.
Qed.

Lemma mapM_raises {X Y : Type} (f : X -> result Y) (e : exn) (l : list X) :
  (forall x, x ∈ l -> f x = Raise e \/ exists y, f x = Ok y) ->
  (exists x, x ∈ l /\ f x = Raise e) ->
  mapM f l = Raise e.
Proof.
  induction l as [|x0 l IH]; intros Hall (x & Hx & Hr).
  - by apply elem_of_nil in Hx.
  - change (mapM f (x0 :: l)) with (y ← f x0; k ← mapM f l; Ok (y :: k)).
    destruct (Hall x0) as [->|[y Hy]]; [by left|done|].
    rewrite Hy. simpl. rewrite IH; [done| |].
    + intros z Hz. apply Hall. by right.
    + apply elem_of_cons in Hx as [->|Hx]; [congruence|eauto].
Qed.

Lemma unknown_good (bundle : gset string) :
  ~ bundle ⊆ dom (map_good_to_value a) ->
  exists g, g ∈ bundle /\ map_good_to_value a !! g = None.
Proof.
  intros Hnot.
  destruct (decide (Forall (fun g => g ∈ dom (map_good_to_value a))
                      (elements bundle))) as [Hall|Hall].
  - exfalso. apply Hnot. intros g Hg. rewrite Forall_forall in Hall.
    by apply Hall, elem_of_elements.
  - apply not_Forall_Exists in Hall; [|apply _].
    apply Exists_exists in Hall as (g & Hg & Hdom).
    exists g. split; [by apply elem_of_elements|].
    by apply not_elem_of_dom.
Qed.

Lemma additive_value_cases (bundle : gset string) :
  AdditiveAgent_value a bundle = Raise KeyError
  \/ exists y, AdditiveAgent_value a bundle = Ok y.
Proof.
  unfold AdditiveAgent_value, AdditiveAgent_value_list.
  rewrite mapM_good_value. destruct (decide _); simpl; eauto.
Qed.

Lemma additive_value_unknown (bundle : gset string) (g : string) :
  g ∈ bundle -> map_good_to_value a !! g = None ->
  AdditiveAgent_value a bundle = Raise KeyError.
Proof.
  intros Hg Hnone.
  unfold AdditiveAgent_value, AdditiveAgent_value_list.
  rewrite mapM_good_value. rewrite decide_False; [done|].
  intros Hall. rewrite Forall_forall in Hall.
  apply elem_of_elements, Hall, elem_of_dom in Hg as [w Hw]. congruence.
Qed.

Lemma additive_sorted_unknown (sign : Z) (bundle : gset string) :
  ~ bundle ⊆ dom (map_good_to_value a) ->
  AdditiveAgent_sorted a sign bundle = Raise KeyError.
Proof.
  intros (g & Hg & Hnone)%unknown_good. unfold AdditiveAgent_sorted.
  rewrite (mapM_raises _ KeyError); [done| |].
  - intros x _. unfold good_value.
    destruct (map_good_to_value a !! x); simpl; eauto.
  - exists g. split; [by apply elem_of_elements|].
    unfold good_value. by rewrite Hnone.
Qed.

Lemma base_values_unknown (bundle : gset string) (c : nat) :
  (c < size bundle)%nat ->
  ~ bundle ⊆ dom (map_good_to_value a) ->
  mapM (fun sub => AdditiveAgent_value a (bundle ∖ list_to_set sub))
       (combinations (elements bundle) c)
  = Raise KeyError.
Proof.
  intros Hc (g & Hg & Hnone)%unknown_good.
  apply mapM_raises; [intros sub _; apply additive_value_cases|].
  apply elem_of_elements, elem_of_Permutation in Hg as [rest Hrest].
  assert (HD : rest ++ [g] ≡ₚ elements bundle).
  { rewrite Hrest. symmetry. apply Permutation_cons_append. }
  assert (Hlen : size bundle = S (length rest)).
  { change (size bundle) with (length (elements bundle)).
    by rewrite Hrest. }
  destruct (combination_attained bundle c (rest ++ [g]) HD)
    as (sub & Hsub & Hset & _); [lia|].
  exists sub. split; [done|].
  apply (additive_value_unknown _ g); [|done].
  rewrite Hset, elem_of_list_to_set, drop_app_le by lia.
  apply elem_of_app. right. by left.
Qed.

Lemma base_values_known (bundle : gset string) (c : nat) :
  bundle ⊆ dom (map_good_to_value a) ->
  mapM (fun sub => AdditiveAgent_value a (bundle ∖ list_to_set sub))
       (combinations (elements bundle) c)
  = Ok ((fun sub => sum_Z (good_value_or_0 a <$> elements (bundle ∖ list_to_set sub)))
          <$> combinations (elements bundle) c).
Proof.
  intros Hsub. apply mapM_all_Ok. intros sub _.
  apply additive_value_known. intros g Hg. apply Hsub.
  by apply elem_of_difference in Hg as [? _].
Qed.

End AdditiveOverride.

(** For c >= 0 the overrides of AdditiveAgent, which sort the bundle by
    value and drop c goods, behave as the methods of the base class, which
    try every set of c goods: on a bundle of goods the agent has a value for
    they return the same number, and on any other bundle of more than c
    goods both raise KeyError. *)
Theorem additive_overrides_agree (a : Agents.AdditiveAgent)
    (bundle : gset string) (c : Z) :
  0 <= c ->
  Agents.AdditiveAgent_value_except_best_c_goods a bundle c
  = BaseClass.value_except_best_c_goods (Agents.AdditiveAgent_value a)
      bundle c
  /\ Agents.AdditiveAgent_value_except_worst_c_goods a bundle c
     = BaseClass.value_except_worst_c_goods (Agents.AdditiveAgent_value a)
         bundle c.
Proof.
  intros Hc.
  unfold Agents.AdditiveAgent_value_except_best_c_goods,
    Agents.AdditiveAgent_value_except_worst_c_goods,
    BaseClass.value_except_best_c_goods,
    BaseClass.value_except_worst_c_goods, BaseClass.values_except_c.
  destruct (Z.leb_spec (Z.of_nat (size bundle)) c) as [|Hsize]; [done|].
  destruct (Z.ltb_spec c 0) as [|_]; [lia|].
  destruct (decide (bundle ⊆ dom (Agents.map_good_to_value a)))
    as [Hknown|Hunknown].
  2:{ rewrite !additive_sorted_unknown, base_values_unknown by (done || lia).
      done. }
  rewrite !additive_sorted_known, base_values_known by done.
  unfold Agents.slice_from.
  destruct (Z.ltb_spec c 0) as [|_]; [lia|].
  assert (Hle : (Z.to_nat c <= size bundle)%nat) by lia.
  split; simpl.
  - set (D := fst <$> Agents.sorted snd _).
    assert (HD : D ≡ₚ elements bundle)
      by apply (sorted_keyed_perm (fun g => -1 * Agents.good_value_or_0 a g)).
    rewrite additive_value_list_known.
    2:{ intros g Hg. apply Hknown, elem_of_elements. rewrite <- HD.
        exact (elem_of_sublist _ _ g Hg (sublist_drop D _)). }
    symmetry. apply min_Z_attained.
    + destruct (combination_attained a bundle (Z.to_nat c) D HD Hle)
        as (sub & Hs & _ & Heq).
      apply list_elem_of_fmap. by exists sub.
    + intros x (sub & -> & Hs)%list_elem_of_fmap.
      assert (Hsorted : StronglySorted Z.le
                ((fun g => -1 * Agents.good_value_or_0 a g) <$> D)).
      { unfold D.
        rewrite (sorted_keyed_values
                   (fun g => -1 * Agents.good_value_or_0 a g)).
        apply sorted_sorted. }
      pose proof (combination_bound a (-1) bundle (Z.to_nat c) D sub
                    HD Hsorted Hs).
      lia.
  - set (D := fst <$> Agents.sorted snd _).
    assert (HD : D ≡ₚ elements bundle)
      by apply (sorted_keyed_perm (fun g => 1 * Agents.good_value_or_0 a g)).
    rewrite additive_value_list_known.
    2:{ intros g Hg. apply Hknown, elem_of_elements. rewrite <- HD.
        exact (elem_of_sublist _ _ g Hg (sublist_drop D _)). }
    symmetry. apply max_Z_attained.
    + destruct (combination_attained a bundle (Z.to_nat c) D HD Hle)
        as (sub & Hs & _ & Heq).
      apply list_elem_of_fmap. by exists sub.
    + intros x (sub & -> & Hs)%list_elem_of_fmap.
      assert (Hsorted : StronglySorted Z.le
                ((fun g => 1 * Agents.good_value_or_0 a g) <$> D)).
      { unfold D.
        rewrite (sorted_keyed_values
                   (fun g => 1 * Agents.good_value_or_0 a g)).
        apply sorted_sorted. }
      pose proof (combination_bound a 1 bundle (Z.to_nat c) D sub
                    HD Hsorted Hs).
      lia.
Qed.

Lemma additive_overrides_agree_witness :
  let a := Agents.AdditiveAgent_init
             (<["x"%string := 1]>
                (<["y"%string := 2]> (<["z"%string := 4]> ∅))) 1 in
  let xyz : gset string := {["x"%string; "y"%string; "z"%string]} in
  Agents.AdditiveAgent_value_except_best_c_goods a xyz 1
  = BaseClass.value_except_best_c_goods (Agents.AdditiveAgent_value a) xyz 1
  /\ Agents.AdditiveAgent_value_except_worst_c_goods a xyz 1
     = BaseClass.value_except_worst_c_goods (Agents.AdditiveAgent_value a)
         xyz 1.
Proof.
  intros a xyz. apply (additive_overrides_agree a xyz 1). lia.
Defined.
